(** * make-parser: the [Result] model, the [Parser] class and [word]

    A shallow embedding of the parser-combinator engine of make-parser
    (TypeScript).  Every definition below follows one declaration of the
    source; the comment in front of it quotes the declaration it embeds. *)

From Stdlib Require Import ZArith List Bool String Ascii Lia.
Import ListNotations.
Local Open Scope Z_scope.

Set Implicit Arguments.

(** ** JavaScript strings

    A JavaScript string is a finite sequence of 16-bit code units.  Indices
    and lengths are JavaScript numbers; the engine only ever adds one to them
    and compares them, so they are modelled as integers. *)

Definition codeunit := Z.
Definition jsstring := list codeunit.

(** A string literal of the source, as code units (ASCII only). *)
Definition js (s : string) : jsstring :=
  List.map (fun a => Z.of_N (N_of_ascii a)) (list_ascii_of_string s).

(** [a === b] on two strings. *)
Fixpoint jsstring_eqb (a b : jsstring) : bool :=
  match a, b with
  | [], [] => true
  | x :: a', y :: b' => (x =? y) && jsstring_eqb a' b'
  | _, _ => false
  end.

(** [s.length] *)
Definition jslength (s : jsstring) : Z := Z.of_nat (List.length s).

(** [s[i]]: the one-unit string at index [i], [undefined] (here [None])
    when [i] is not an index of [s]. *)
Definition index (s : jsstring) (i : Z) : option jsstring :=
  if i <? 0 then None
  else match nth_error s (Z.to_nat i) with
       | Some u => Some [u]
       | None => None
       end.

(** [x ?? d] *)
Definition nullish (A : Type) (x : option A) (d : A) : A :=
  match x with
  | Some a => a
  | None => d
  end.

(** [c === x] where [c] is a string and [x] is a string or [undefined]. *)
Definition strict_eq (c : jsstring) (x : option jsstring) : bool :=
  match x with
  | Some w => jsstring_eqb c w
  | None => false
  end.

(** [s.substring(a, b)]: both arguments are clamped to [0 .. s.length] and
    swapped when the first is the larger. *)
Definition clamp (len x : Z) : Z := Z.min (Z.max x 0) len.

Definition substring (s : jsstring) (a b : Z) : jsstring :=
  let a' := clamp (jslength s) a in
  let b' := clamp (jslength s) b in
  let from := Z.min a' b' in
  let to := Z.max a' b' in
  firstn (Z.to_nat (to - from)) (skipn (Z.to_nat from) s).

(** [s.substring(a)] *)
Definition substring_from (s : jsstring) (a : Z) : jsstring :=
  substring s a (jslength s).

(** The string iterator behind [for (const c of s)]: it yields code points,
    so a high surrogate followed by a low surrogate comes out as one string of
    two code units; every other code unit comes out alone. *)
Definition is_high_surrogate (u : codeunit) : bool :=
  (0xD800 <=? u) && (u <=? 0xDBFF).

Definition is_low_surrogate (u : codeunit) : bool :=
  (0xDC00 <=? u) && (u <=? 0xDFFF).

Fixpoint string_iterator (s : jsstring) : list jsstring :=
  match s with
  | [] => []
  | u :: rest =>
      match rest with
      | v :: rest' =>
          if is_high_surrogate u && is_low_surrogate v
          then [u; v] :: string_iterator rest'
          else [u] :: string_iterator rest
      | [] => [[u]]
      end
  end.

(** ** The result of a parse

<<
export type Result<T> =
    | { success: true; value: T; endIndex: number; }
    | { success: false; messages: string[]; failIndex: number;
        unReversible?: boolean; };
>>
    The optional field [unReversible] is [None] when the object has no such
    field. *)

Inductive Result (T : Type) : Type :=
| Success (value : T) (endIndex : Z)
| Failure (messages : list jsstring) (failIndex : Z)
          (unReversible : option bool).

Arguments Success {T} value endIndex.
Arguments Failure {T} messages failIndex unReversible.

(** [if (result.unReversible)]: an absent field is falsy. *)
Definition truthy (u : option bool) : bool :=
  match u with
  | Some true => true
  | _ => false
  end.

(** ** The parser class

<<
export class Parser<T> {
    constructor(public readonly parse:
        (code: string, startIndex: number) => Result<T>) {}
>>
    A call of [parse] may not return: [repeat] loops for ever under a parser
    that succeeds without consuming input, and a rule that refers to itself
    through [Parser.dynamic] may call itself for ever.  A call is therefore
    given a bound [fuel] on the number of turns any one loop may make and on
    the number of passages through a self-reference, and answers [None] when
    the bound is hit.  The combinators hand the bound they are given to their
    operands as it is. *)

Record Parser (T : Type) : Type := mkParser {
  parse : nat -> jsstring -> Z -> option (Result T)
}.

Arguments mkParser {T} parse.
Arguments parse {T} p fuel code startIndex.

Module Parser.

(**
<<
    map<K>(map: (value: T, startIndex: number, endIndex: number) => K) {
        return new Parser<K>((code, startIndex) => {
            const result = this.parse(code, startIndex);
            if (!result.success) { return result; }
            return { ...result,
                     value: map(result.value, startIndex, result.endIndex) };
        });
    }
>> *)
Definition map (T K : Type) (this : Parser T) (map : T -> Z -> Z -> K)
  : Parser K :=
  mkParser (fun fuel code startIndex =>
    match parse this fuel code startIndex with
    | None => None
    | Some (Failure messages failIndex u) =>
        Some (Failure messages failIndex u)
    | Some (Success value endIndex) =>
        Some (Success (map value startIndex endIndex) endIndex)
    end).

(**
<<
    mapFailMessages(map: (message: string[]) => string[]) {
        return new Parser<T>((code, startIndex) => {
            const result = this.parse(code, startIndex);
            if (result.success) { return result; }
            return { ...result, messages: map(result.messages) };
        });
    }
>> *)
Definition mapFailMessages (T : Type) (this : Parser T)
  (map : list jsstring -> list jsstring) : Parser T :=
  mkParser (fun fuel code startIndex =>
    match parse this fuel code startIndex with
    | None => None
    | Some (Success value endIndex) => Some (Success value endIndex)
    | Some (Failure messages failIndex u) =>
        Some (Failure (map messages) failIndex u)
    end).

(**
<<
    concat<K>(parser: Parser<K>) {
        return new Parser<[T, K]>((code, startIndex) => {
            const firstResult = this.parse(code, startIndex);
            if (!firstResult.success) { return firstResult; }
            const secondResult = parser.parse(code, firstResult.endIndex);
            if (!secondResult.success) { return secondResult; }
            return { success: true,
                     value: [firstResult.value, secondResult.value],
                     endIndex: secondResult.endIndex };
        });
    }
>> *)
Definition concat (T K : Type) (this : Parser T) (parser : Parser K)
  : Parser (T * K) :=
  mkParser (fun fuel code startIndex =>
    match parse this fuel code startIndex with
    | None => None
    | Some (Failure messages failIndex u) =>
        Some (Failure messages failIndex u)
    | Some (Success value1 endIndex1) =>
        match parse parser fuel code endIndex1 with
        | None => None
        | Some (Failure messages failIndex u) =>
            Some (Failure messages failIndex u)
        | Some (Success value2 endIndex2) =>
            Some (Success (value1, value2) endIndex2)
        end
    end).

(** [join(parser) { return this.concat(parser).map((value) => value[0]); }] *)
Definition join (T K : Type) (this : Parser T) (parser : Parser K)
  : Parser T :=
  map (concat this parser) (fun value _ _ => fst value).

(** [joinRight(parser) { return this.concat(parser).map((value) => value[1]); }] *)
Definition joinRight (T K : Type) (this : Parser T) (parser : Parser K)
  : Parser K :=
  map (concat this parser) (fun value _ _ => snd value).

(**
<<
    unReversible() {
        return new Parser((code, startIndex) => {
            const result = this.parse(code, startIndex);
            if (!result.success) { return { ...result, unReversible: true }; }
            return result;
        });
    }
>> *)
Definition unReversible (T : Type) (this : Parser T) : Parser T :=
  mkParser (fun fuel code startIndex =>
    match parse this fuel code startIndex with
    | None => None
    | Some (Failure messages failIndex _) =>
        Some (Failure messages failIndex (Some true))
    | Some (Success value endIndex) => Some (Success value endIndex)
    end).

(**
<<
    union<K>(parser: Parser<K>) {
        return new Parser<T | K>((code, startIndex) => {
            const ownResult = this.parse(code, startIndex);
            if (ownResult.success) { return ownResult; }
            if (ownResult.unReversible) { return ownResult; }
            const othersResult = parser.parse(code, startIndex);
            if (othersResult.success) { return othersResult; }
            if (othersResult.unReversible) { return othersResult; }
            return { success: false, failIndex: startIndex,
                     messages: ownResult.messages.concat(
                         othersResult.messages) };
        });
    }
>>
    The untagged union [T | K] is the sum [T + K]: a value of [this] is
    injected on the left, a value of [parser] on the right. *)
Definition union (T K : Type) (this : Parser T) (parser : Parser K)
  : Parser (T + K) :=
  mkParser (fun fuel code startIndex =>
    match parse this fuel code startIndex with
    | None => None
    | Some (Success value endIndex) => Some (Success (inl value) endIndex)
    | Some (Failure ownMessages ownFailIndex ownU) =>
        if truthy ownU then Some (Failure ownMessages ownFailIndex ownU)
        else
          match parse parser fuel code startIndex with
          | None => None
          | Some (Success value endIndex) =>
              Some (Success (inr value) endIndex)
          | Some (Failure othersMessages othersFailIndex othersU) =>
              if truthy othersU
              then Some (Failure othersMessages othersFailIndex othersU)
              else Some (Failure (ownMessages ++ othersMessages)
                                 startIndex None)
          end
    end).

(**
<<
    repeat(minimumIterations: number = 0) {
        return new Parser<T[]>((code, startIndex) => {
            const values = new Array<T>();
            let endIndex = startIndex;
            while (endIndex < code.length ||
                   values.length < minimumIterations) {
                const result = this.parse(code, endIndex);
                if (!result.success) {
                    if (result.unReversible ||
                        values.length < minimumIterations) {
                        return result;
                    } else { break; }
                }
                values.push(result.value);
                endIndex = result.endIndex;
            }
            return { success: true, value: values, endIndex };
        });
    }
>>
    [loop_condition] is the test of the [while]; [repeat_loop] is the loop,
    entered with the current [values] and [endIndex]; each turn of the loop
    takes one unit of [gas]. *)
Definition loop_condition (code : jsstring) (minimumIterations : Z)
  (count : nat) (endIndex : Z) : bool :=
  (endIndex <? jslength code) || (Z.of_nat count <? minimumIterations).

Fixpoint repeat_loop (T : Type) (this : Parser T) (minimumIterations : Z)
  (fuel gas : nat) (code : jsstring) (values : list T) (endIndex : Z)
  : option (Result (list T)) :=
  if loop_condition code minimumIterations (List.length values) endIndex
  then
    match gas with
    | O => None
    | S gas' =>
        match parse this fuel code endIndex with
        | None => None
        | Some (Failure messages failIndex u) =>
            if truthy u
               || (Z.of_nat (List.length values) <? minimumIterations)
            then Some (Failure messages failIndex u)
            else Some (Success values endIndex)
        | Some (Success value endIndex') =>
            repeat_loop this minimumIterations fuel gas' code
                        (values ++ [value]) endIndex'
        end
    end
  else Some (Success values endIndex).

Definition repeat (T : Type) (this : Parser T) (minimumIterations : Z)
  : Parser (list T) :=
  mkParser (fun fuel code startIndex =>
    repeat_loop this minimumIterations fuel fuel code [] startIndex).

(**
<<
    wrap() {
        return new Parser<string>((code, startIndex) => {
            const result = this.parse(code, startIndex);
            if (!result.success) { return result; }
            return { ...result,
                     value: code.substring(startIndex, result.endIndex) };
        });
    }
>> *)
Definition wrap (T : Type) (this : Parser T) : Parser jsstring :=
  mkParser (fun fuel code startIndex =>
    match parse this fuel code startIndex with
    | None => None
    | Some (Failure messages failIndex u) =>
        Some (Failure messages failIndex u)
    | Some (Success _ endIndex) =>
        Some (Success (substring code startIndex endIndex) endIndex)
    end).

(**
<<
    static NONE = new Parser<null>((code, startIndex) => {
        return { success: true, value: null, endIndex: startIndex };
    });
>>
    [null] is the one value [tt] of [unit]. *)
Definition NONE : Parser unit :=
  mkParser (fun _ _ startIndex => Some (Success tt startIndex)).

(** [option() { return this.union(Parser.NONE); }] *)
Definition option (T : Type) (this : Parser T) : Parser (T + unit) :=
  union this NONE.

(**
<<
    static dynamic = <T>(getParser: () => Parser<T>) => {
        return new Parser((code, startIndex) => {
            return getParser().parse(code, startIndex);
        });
    };
>> *)
Definition dynamic (T : Type) (getParser : unit -> Parser T) : Parser T :=
  mkParser (fun fuel code startIndex =>
    parse (getParser tt) fuel code startIndex).

(**
<<
    static match(
        filter: (character: string) => boolean,
        getMessage: (character: string) => string = (character) => {
            return `Unexpected Character: '${character}'`;
        }
    ) {
        return new Parser((code, startIndex) => {
            const character = code[startIndex] ?? '';
            if (filter(character)) {
                return { success: true, value: character,
                         endIndex: startIndex + 1 };
            } else {
                return { success: false,
                         messages: [getMessage(character)],
                         failIndex: startIndex };
            }
        });
    }
>> *)
Definition default_getMessage (character : jsstring) : jsstring :=
  js "Unexpected Character: '" ++ character ++ js "'".

Definition match_ (filter : jsstring -> bool)
  (getMessage : jsstring -> jsstring) : Parser jsstring :=
  mkParser (fun _ code startIndex =>
    let character := nullish (index code startIndex) [] in
    if filter character
    then Some (Success character (startIndex + 1))
    else Some (Failure [getMessage character] startIndex None)).

End Parser.

(**
<<
export const word = (word: string) => {
    let parser = Parser.match(
        (char) => char === word[0],
        (char) => {
            return `Unexpected character: expected '${word}', instead found '${char}'`;
        }
    );
    for (const character of word.substring(1)) {
        parser = parser
            .concat(
                Parser.match(
                    (char) => char === character,
                    (char) => {
                        return `Unexpected character: expected '${word}' (specifically '${character}'), instead found '${char}'`;
                    }
                )
            )
            .wrap();
    }
    return parser;
};
>> *)
Definition word_first_message (word char : jsstring) : jsstring :=
  js "Unexpected character: expected '" ++ word
     ++ js "', instead found '" ++ char ++ js "'".

Definition word_next_message (word character char : jsstring) : jsstring :=
  js "Unexpected character: expected '" ++ word
     ++ js "' (specifically '" ++ character
     ++ js "'), instead found '" ++ char ++ js "'".

Definition word_step (word : jsstring) (parser : Parser jsstring)
  (character : jsstring) : Parser jsstring :=
  Parser.wrap
    (Parser.concat parser
       (Parser.match_
          (fun char => jsstring_eqb char character)
          (word_next_message word character))).

Definition word (word : jsstring) : Parser jsstring :=
  fold_left (word_step word)
    (string_iterator (substring_from word 1))
    (Parser.match_
       (fun char => strict_eq char (index word 0))
       (word_first_message word)).


(** A caller's parser whose [parse] never returns (its body loops for ever).
    Used to observe that a combinator does not invoke an operand: had it been
    invoked, the combinator would not return either. *)
Definition never (T : Type) : Parser T :=
  mkParser (fun _ _ _ => None).

(** ** The turns of the loop of [repeat]

    [iterations this n fuel code count endIndex run]: entered with [count]
    values accumulated and the position [endIndex], the loop of
    [this.repeat(n)] makes [length run] successful turns; turn after turn the
    test of the [while] holds and [this] succeeds, with the value and the end
    index that [run] lists in order. *)
Fixpoint iterations (T : Type) (this : Parser T) (n : Z) (fuel : nat)
  (code : jsstring) (count : nat) (endIndex : Z) (run : list (T * Z))
  : Prop :=
  match run with
  | [] => True
  | (value, endIndex') :: run' =>
      Parser.loop_condition code n count endIndex = true
      /\ parse this fuel code endIndex = Some (Success value endIndex')
      /\ iterations this n fuel code (S count) endIndex' run'
  end.

(** The values a run accumulates, in order, and the position where its last
    success ended ([startIndex] when the run is empty). *)
Definition values_of (T : Type) (run : list (T * Z)) : list T :=
  List.map fst run.

Definition end_of (T : Type) (startIndex : Z) (run : list (T * Z)) : Z :=
  last (List.map snd run) startIndex.

(** The two guarantees of the interface, as properties of one parser. *)
Definition advances (T : Type) (p : Parser T) : Prop :=
  forall fuel code P v e,
    parse p fuel code P = Some (Success v e) -> P <= e.

Definition fails_with_a_message (T : Type) (p : Parser T) : Prop :=
  forall fuel code P m fi u,
    parse p fuel code P = Some (Failure m fi u) -> m <> [].

(** ** What [word] is to check

    [matches_at literal code P]: the characters of [code] at [P], [P + 1],
    ... are those of [literal], one by one.  [first_mismatch_at literal code P
    k]: [k] is the first index of [literal] whose character is not the one
    [code] has at [P + k]. *)
Definition matches_at (literal code : jsstring) (P : Z) : Prop :=
  forall k : nat,
    (k < List.length literal)%nat ->
    index code (P + Z.of_nat k) = Some [nth k literal 0].

Definition first_mismatch_at (literal code : jsstring) (P : Z) (k : nat)
  : Prop :=
  (k < List.length literal)%nat
  /\ index code (P + Z.of_nat k) <> Some [nth k literal 0]
  /\ forall j : nat,
       (j < k)%nat -> index code (P + Z.of_nat j) = Some [nth j literal 0].

(** The message of the matcher that [word(w)] builds for index [k] of
    [literal], on finding [char]. *)
Definition message_at (w literal : jsstring) (k : nat) (char : jsstring)
  : jsstring :=
  match k with
  | O => word_first_message w char
  | S _ => word_next_message w [nth k literal 0] char
  end.

(** The strings that the string iterator hands out one code unit at a time:
    those without a high surrogate followed by a low one. *)
Definition iterates_by_code_unit (s : jsstring) : Prop :=
  string_iterator s = List.map (fun u => [u]) s.

(** The parser that [word(w)] holds after the matcher of the first code unit
    [u] and one turn of its loop for each code unit of [l]. *)
Definition word_prefix (w : jsstring) (u : codeunit) (l : jsstring)
  : Parser jsstring :=
  fold_left (word_step w) (List.map (fun x => [x]) l)
    (Parser.match_ (fun char => strict_eq char (Some [u]))
                   (word_first_message w)).

(** ** Calls

    The completion of a call: a normal return with its value, or a thrown
    exception. *)
Inductive Completion (A : Type) : Type :=
| Normal (value : A)
| Throw.

Arguments Normal {A} value.
Arguments Throw {A}.

(** The call [word(w)].  The body of [word] has no [throw] statement, and
    what it evaluates ([w[0]], [w.substring(1)], the string iterator,
    [Parser.match], [concat], [wrap]) does not throw on a string: the call
    returns the parser it has built. *)
Definition word_call (w : jsstring) : Completion (Parser jsstring) :=
  Normal (word w).

(** ** Grammars that refer to themselves

    A rule that mentions itself is bound as
    [const x: Parser<T> = F(Parser.dynamic(() => x))]: each time a parse goes
    through the reference, [getParser] hands back [x], that is the body [F]
    once more.  [unfolding F depth] is the rule with [depth] such passages
    allowed, and [recursive F] is [x], the bound on the passages being the
    fuel of the call. *)
Fixpoint unfolding (T : Type) (F : Parser T -> Parser T) (depth : nat)
  : Parser T :=
  match depth with
  | O => never T
  | S depth' => F (Parser.dynamic (fun _ => unfolding F depth'))
  end.

Definition recursive (T : Type) (F : Parser T -> Parser T) : Parser T :=
  mkParser (fun fuel code startIndex =>
    parse (unfolding F fuel) fuel code startIndex).

(** [const nest = word("(").concat(Parser.dynamic(() => nest))
                   .concat(word(")")).wrap().option()] *)
Definition nest : Parser (jsstring + unit) :=
  recursive (fun x =>
    Parser.option
      (Parser.wrap
         (Parser.concat (Parser.concat (word (js "(")) x) (word (js ")"))))).

(** [const parens = word("(")
        .concat(Parser.dynamic(() => parens).union(word(")")))
        .wrap()
        .mapFailMessages((messages) => messages.concat("unbalanced"))] *)
Definition parens : Parser jsstring :=
  recursive (fun x =>
    Parser.mapFailMessages
      (Parser.wrap
         (Parser.concat (word (js "(")) (Parser.union x (word (js ")")))))
      (fun messages => messages ++ [js "unbalanced"])).

(** Two rules, the inner one referring to itself and to the outer one:
<<
const outer = word("[").concat(Parser.dynamic(() => inner))
                       .concat(word("]")).wrap();
const inner = word("(").concat(Parser.dynamic(() => inner))
                       .concat(word(")"))
                       .union(Parser.dynamic(() => outer).union(word(".")))
                       .wrap();
>> *)
Definition brackets : Parser jsstring :=
  recursive (fun outer =>
    Parser.wrap
      (Parser.concat
         (Parser.concat
            (word (js "["))
            (recursive (fun inner =>
               Parser.wrap
                 (Parser.union
                    (Parser.concat
                       (Parser.concat (word (js "(")) inner)
                       (word (js ")")))
                    (Parser.union outer (word (js ".")))))))
         (word (js "]")))).

(** ** Parsers built from the public API

    [in_scope known x]: the rules that a body may refer to through
    [Parser.dynamic], namely the rule [x] being bound and the rules [known]
    of the bindings around it. *)
Inductive in_scope (known : forall T : Type, Parser T -> Prop)
  (S : Type) (x : Parser S) : forall T : Type, Parser T -> Prop :=
| scope_here : in_scope known x x
| scope_outer (T : Type) (p : Parser T) : known T p -> in_scope known x p.

(** [ApiIn ok known p]: the parser [p] is one of the primitives
    [Parser.match], [word], [Parser.NONE], [Parser.dynamic], or a reference
    to one of the rules [known], or a rule bound to a body that refers to the
    rule itself through [Parser.dynamic] ([recursive]), or comes from parsers
    so built by one of the combinators.  The functions handed to [map] and
    the predicates and message builders handed to [match] are arbitrary; the
    functions handed to [mapFailMessages] are those that satisfy [ok]. *)
Inductive ApiIn (ok : (list jsstring -> list jsstring) -> Prop)
  (known : forall T : Type, Parser T -> Prop)
  : forall T : Type, Parser T -> Prop :=
| Api_reference (T : Type) (p : Parser T) :
    known T p -> ApiIn ok known p
| Api_recursive (T : Type) (F : Parser T -> Parser T) :
    (forall x : Parser T, ApiIn ok (in_scope known x) (F x)) ->
    ApiIn ok known (recursive F)
| Api_match (filter : jsstring -> bool) (getMessage : jsstring -> jsstring) :
    ApiIn ok known (Parser.match_ filter getMessage)
| Api_word (w : jsstring) :
    ApiIn ok known (word w)
| Api_NONE :
    ApiIn ok known Parser.NONE
| Api_dynamic (T : Type) (getParser : unit -> Parser T) :
    ApiIn ok known (getParser tt) -> ApiIn ok known (Parser.dynamic getParser)
| Api_map (T K : Type) (p : Parser T) (f : T -> Z -> Z -> K) :
    ApiIn ok known p -> ApiIn ok known (Parser.map p f)
| Api_mapFailMessages (T : Type) (p : Parser T)
    (f : list jsstring -> list jsstring) :
    ok f -> ApiIn ok known p -> ApiIn ok known (Parser.mapFailMessages p f)
| Api_concat (T K : Type) (a : Parser T) (b : Parser K) :
    ApiIn ok known a -> ApiIn ok known b ->
    ApiIn ok known (Parser.concat a b)
| Api_join (T K : Type) (a : Parser T) (b : Parser K) :
    ApiIn ok known a -> ApiIn ok known b ->
    ApiIn ok known (Parser.join a b)
| Api_joinRight (T K : Type) (a : Parser T) (b : Parser K) :
    ApiIn ok known a -> ApiIn ok known b ->
    ApiIn ok known (Parser.joinRight a b)
| Api_unReversible (T : Type) (p : Parser T) :
    ApiIn ok known p -> ApiIn ok known (Parser.unReversible p)
| Api_union (T K : Type) (a : Parser T) (b : Parser K) :
    ApiIn ok known a -> ApiIn ok known b ->
    ApiIn ok known (Parser.union a b)
| Api_repeat (T : Type) (p : Parser T) (n : Z) :
    ApiIn ok known p -> ApiIn ok known (Parser.repeat p n)
| Api_wrap (T : Type) (p : Parser T) :
    ApiIn ok known p -> ApiIn ok known (Parser.wrap p)
| Api_option (T : Type) (p : Parser T) :
    ApiIn ok known p -> ApiIn ok known (Parser.option p).

(** At the top level no rule is being bound. *)
Definition no_rule (T : Type) (p : Parser T) : Prop := False.

(** [Api ok p]: [p] is built from the public API, self-referential rules
    included. *)
Definition Api (ok : (list jsstring -> list jsstring) -> Prop)
  (T : Type) (p : Parser T) : Prop :=
  ApiIn ok no_rule p.

(** No restriction on the functions handed to [mapFailMessages]. *)
Definition any_map (f : list jsstring -> list jsstring) : Prop := True.

(** The functions that give back at least one message when given at least
    one. *)
Definition keeps_a_message (f : list jsstring -> list jsstring) : Prop :=
  forall messages, messages <> [] -> f messages <> [].

(** A parser whose answers do not depend on the bound once it is large
    enough for the call to return. *)
Definition stable (T : Type) (p : Parser T) : Prop :=
  forall fuel fuel' code P r,
    (fuel <= fuel')%nat ->
    parse p fuel code P = Some r -> parse p fuel' code P = Some r.

(** ** Regrouping of values

    [concat] nests its pairs to the left and [union] its alternatives to the
    left; these functions regroup a value nested to the right. *)
Definition pair_assoc (A B C : Type) (v : A * (B * C)) : (A * B) * C :=
  let '(x, (y, z)) := v in ((x, y), z).

Definition sum_assoc (A B C : Type) (v : A + (B + C)) : (A + B) + C :=
  match v with
  | inl x => inl (inl x)
  | inr (inl y) => inl (inr y)
  | inr (inr z) => inr z
  end.

(** The longest prefix of [s] whose code units, each taken as a character,
    satisfy [filter]. *)
Fixpoint take_while (filter : jsstring -> bool) (s : jsstring) : jsstring :=
  match s with
  | [] => []
  | x :: s' => if filter [x] then x :: take_while filter s' else []
  end.

(** [shaped k p]: at every input and start index [P], [p] returns; its
    successes end at [P + k]; its failures carry one message and no mark, at
    a fail index from [P] up to, not including, [P + k]. *)
Definition shaped (T : Type) (k : Z) (p : Parser T) : Prop :=
  forall fuel code P,
    exists r,
      parse p fuel code P = Some r
      /\ match r with
         | Success _ e => e = P + k
         | Failure m fi u =>
             u = None /\ List.length m = 1%nat /\ P <= fi < P + k
         end.

(** * Properties *)

(** ** The examples of the documentation

    The results that the comments of the source announce for its examples,
    computed on the definitions above. *)

Example concat_example :
  parse (Parser.concat (word (js "x")) (word (js "y"))) 0 (js "xy") 0
  = Some (Success (js "x", js "y") 2).
Proof. reflexivity. Qed.

Example union_example :
  parse (Parser.union (word (js "x")) (word (js "y"))) 0 (js "a") 0
  = Some (Failure
            [js "Unexpected character: expected 'x', instead found 'a'";
             js "Unexpected character: expected 'y', instead found 'a'"]
            0 None).
Proof. reflexivity. Qed.

Example unReversible_union_example :
  parse (Parser.union (Parser.unReversible (word (js "x"))) (word (js "y")))
        0 (js "a") 0
  = Some (Failure
            [js "Unexpected character: expected 'x', instead found 'a'"]
            0 (Some true)).
Proof. reflexivity. Qed.

Example repeat_example :
  parse (Parser.repeat (word (js "x")) 0) 3 (js "xxx") 0
  = Some (Success [js "x"; js "x"; js "x"] 3).
Proof. reflexivity. Qed.

Example repeat_stops_example :
  parse (Parser.repeat (word (js "x")) 0) 1 (js "a") 0
  = Some (Success [] 0).
Proof. reflexivity. Qed.

Example unReversible_repeat_example :
  parse (Parser.repeat (Parser.unReversible (word (js "x"))) 0) 1 (js "a") 0
  = Some (Failure
            [js "Unexpected character: expected 'x', instead found 'a'"]
            0 (Some true)).
Proof. reflexivity. Qed.

Example wrap_example :
  parse (Parser.wrap (Parser.concat (word (js "x")) (word (js "y"))))
        0 (js "xy") 0
  = Some (Success (js "xy") 2).
Proof. reflexivity. Qed.

Example option_example :
  parse (Parser.option (word (js "x"))) 0 (js "y") 0
  = Some (Success (inr tt) 0).
Proof. reflexivity. Qed.

Example backtracking_example :
  parse (Parser.repeat (Parser.union (word (js "1.0")) (word (js "1"))) 0)
        4 (js "1.01") 0
  = Some (Success [inl (js "1.0"); inr (js "1")] 4).
Proof. reflexivity. Qed.

Example committed_example :
  parse (Parser.repeat
           (Parser.union
              (Parser.concat (word (js "1."))
                             (Parser.unReversible (word (js "0"))))
              (word (js "1"))) 0)
        4 (js "1.1") 0
  = Some (Failure
            [js "Unexpected character: expected '0', instead found '1'"]
            2 (Some true)).
Proof. reflexivity. Qed.

(** ** Strings *)

Lemma jsstring_eqb_refl (a : jsstring) : jsstring_eqb a a = true.
Proof.
  induction a as [|x a IH]; simpl; [reflexivity|].
  now rewrite Z.eqb_refl, IH.
Qed.

Lemma jsstring_eqb_eq (a b : jsstring) : jsstring_eqb a b = true <-> a = b.
Proof.
  split.
  - revert b; induction a as [|x a IH]; intros [|y b]; simpl; try discriminate.
    + reflexivity.
    + intros H. apply andb_true_iff in H as [Hx Hr].
      apply Z.eqb_eq in Hx. now rewrite Hx, (IH b Hr).
  - intros ->. apply jsstring_eqb_refl.
Qed.

Lemma index_inside (s : jsstring) (i : Z) :
  0 <= i < jslength s -> index s i = Some [nth (Z.to_nat i) s 0].
Proof.
  unfold index, jslength. intros [Hlo Hhi].
  destruct (Z.ltb_spec i 0) as [Hneg|_]; [lia|].
  assert (Hn : (Z.to_nat i < List.length s)%nat) by lia.
  destruct (nth_error s (Z.to_nat i)) as [u|] eqn:E.
  - now rewrite (nth_error_nth s (Z.to_nat i) 0 E).
  - apply nth_error_None in E. lia.
Qed.

Lemma index_outside (s : jsstring) (i : Z) :
  i < 0 \/ jslength s <= i -> index s i = None.
Proof.
  unfold index, jslength. intros H.
  destruct (Z.ltb_spec i 0) as [Hneg|Hpos]; [reflexivity|].
  destruct (nth_error s (Z.to_nat i)) as [u|] eqn:E; [|reflexivity].
  assert (nth_error s (Z.to_nat i) <> None) as Hn by congruence.
  apply nth_error_Some in Hn. lia.
Qed.

(** ** [Parser.match] *)

(** C7. [Parser.match(filter, getMessage).parse(code, P)] hands [filter] the
    character of [code] at [P], or the empty string when [P] is at or past
    the end of [code] (or negative); when [filter] accepts it the result is a success with
    that character as value and end index [P + 1], otherwise a failure at [P]
    with the single message [getMessage(character)] and no [unReversible]
    mark. *)
Theorem match_spec (filter : jsstring -> bool)
  (getMessage : jsstring -> jsstring) (fuel : nat) (code : jsstring) (P : Z) :
  exists character : jsstring,
    (0 <= P < jslength code -> character = [nth (Z.to_nat P) code 0])
    /\ (jslength code <= P \/ P < 0 -> character = [])
    /\ (filter character = true ->
        parse (Parser.match_ filter getMessage) fuel code P
        = Some (Success character (P + 1)))
    /\ (filter character = false ->
        parse (Parser.match_ filter getMessage) fuel code P
        = Some (Failure [getMessage character] P None)
        /\ truthy None = false).
Proof.
  exists (nullish (index code P) []).
  repeat split.
  - intros H. now rewrite (index_inside code H).
  - intros H. rewrite index_outside by tauto. reflexivity.
  - intros H. simpl. now rewrite H.
  - simpl. now rewrite H.
Qed.

(** ** Sequencing and alternation *)

(** Replaces the calls of [parse] a goal makes by the results the context
    gives for them, and reads the [unReversible] marks. *)
Ltac run :=
  cbn [parse Parser.union Parser.concat Parser.option Parser.map
       Parser.mapFailMessages Parser.unReversible Parser.wrap Parser.NONE
       Parser.dynamic never];
  repeat match goal with
         | H : parse ?p ?f ?c ?i = _ |- context [parse ?p ?f ?c ?i] =>
             rewrite H
         | H : truthy ?u = _ |- context [truthy ?u] => rewrite H
         end.

(** C4. [a.concat(b)] succeeds exactly when [a] succeeds at [P] and [b]
    succeeds where [a] ended; the value is then the pair of the two values
    and the end index is the one of [b].  A failure of [a], or of [b] after a
    success of [a], is returned as it is: messages, fail index and
    [unReversible] mark. *)
Theorem concat_spec (T K : Type) (a : Parser T) (b : Parser K)
  (fuel : nat) (code : jsstring) (P : Z) :
  (forall (v : T * K) (e : Z),
      parse (Parser.concat a b) fuel code P = Some (Success v e)
      <-> exists (v1 : T) (e1 : Z) (v2 : K),
            parse a fuel code P = Some (Success v1 e1)
            /\ parse b fuel code e1 = Some (Success v2 e)
            /\ v = (v1, v2))
  /\ (forall m fi u,
        parse a fuel code P = Some (Failure m fi u) ->
        parse (Parser.concat a b) fuel code P = Some (Failure m fi u))
  /\ (forall v1 e1 m fi u,
        parse a fuel code P = Some (Success v1 e1) ->
        parse b fuel code e1 = Some (Failure m fi u) ->
        parse (Parser.concat a b) fuel code P = Some (Failure m fi u)).
Proof.
  split; [|split].
  - intros v e. split.
    + cbn [parse Parser.concat].
      destruct (parse a fuel code P) as [[v1 e1|m fi u]|] eqn:Ea;
        try discriminate.
      destruct (parse b fuel code e1) as [[v2 e2|m fi u]|] eqn:Eb;
        try discriminate.
      intros H. injection H as <- <-.
      exists v1, e1, v2. auto.
    + intros (v1 & e1 & v2 & Ha & Hb & ->). now run.
  - intros m fi u Ha. now run.
  - intros v1 e1 m fi u Ha Hb. now run.
Qed.

(** C1. [a.union(b)] at [P]: a success of [a] is the result, and so is a
    failure of [a] marked [unReversible]; in both cases [b] is not invoked
    (the result is the same under a [b] that never returns).  After an
    unmarked failure of [a], [b] is tried at the same [P]: its success, or its
    marked failure, is the result; and when it fails unmarked too the result
    is a failure at [P] with the messages of [a] followed by those of [b] and
    no [unReversible] mark. *)
Theorem union_spec (T K : Type) (a : Parser T) (b : Parser K)
  (fuel : nat) (code : jsstring) (P : Z) :
  (forall v e,
      parse a fuel code P = Some (Success v e) ->
      parse (Parser.union a b) fuel code P = Some (Success (inl v) e)
      /\ parse (Parser.union a (never K)) fuel code P
         = Some (Success (inl v) e))
  /\ (forall m fi u,
        parse a fuel code P = Some (Failure m fi u) ->
        truthy u = true ->
        parse (Parser.union a b) fuel code P = Some (Failure m fi u)
        /\ parse (Parser.union a (never K)) fuel code P
           = Some (Failure m fi u))
  /\ (forall m fi u,
        parse a fuel code P = Some (Failure m fi u) ->
        truthy u = false ->
        (forall v e,
            parse b fuel code P = Some (Success v e) ->
            parse (Parser.union a b) fuel code P = Some (Success (inr v) e))
        /\ (forall m' fi' u',
              parse b fuel code P = Some (Failure m' fi' u') ->
              truthy u' = true ->
              parse (Parser.union a b) fuel code P
              = Some (Failure m' fi' u'))
        /\ (forall m' fi' u',
              parse b fuel code P = Some (Failure m' fi' u') ->
              truthy u' = false ->
              parse (Parser.union a b) fuel code P
              = Some (Failure (m ++ m') P None)
              /\ truthy None = false)).
Proof.
  split; [|split].
  - intros v e Ha. split; now run.
  - intros m fi u Ha Hu. split; now run.
  - intros m fi u Ha Hu. split; [|split].
    + intros v e Hb. now run.
    + intros m' fi' u' Hb Hu'. now run.
    + intros m' fi' u' Hb Hu'. split; [now run | reflexivity].
Qed.

(** C8. [p.option()] is [p.union(Parser.NONE)]: it returns a failure only
    when [p] fails marked [unReversible], and that failure is the one of [p];
    an unmarked failure of [p] becomes a success with value [null] that ends
    at the start index. *)
Theorem option_spec (T : Type) (p : Parser T)
  (fuel : nat) (code : jsstring) (P : Z) :
  (forall m fi u,
      parse (Parser.option p) fuel code P = Some (Failure m fi u) ->
      parse p fuel code P = Some (Failure m fi u) /\ truthy u = true)
  /\ (forall m fi u,
        parse p fuel code P = Some (Failure m fi u) ->
        truthy u = false ->
        parse (Parser.option p) fuel code P = Some (Success (inr tt) P))
  /\ (forall m fi u,
        parse p fuel code P = Some (Failure m fi u) ->
        truthy u = true ->
        parse (Parser.option p) fuel code P = Some (Failure m fi u)).
Proof.
  split; [|split].
  - intros m fi u. cbn [parse Parser.option Parser.union Parser.NONE].
    destruct (parse p fuel code P) as [[v e|m0 fi0 u0]|]; try discriminate.
    destruct (truthy u0) eqn:Hu; try discriminate.
    intros H. injection H as <- <- <-. auto.
  - intros m fi u Hp Hu. now run.
  - intros m fi u Hp Hu. now run.
Qed.

(** ** Repetition *)

Lemma last_cons_default (e d : Z) (l : list Z) : last (e :: l) d = last l e.
Proof.
  revert e d. induction l as [|x l IH]; intros e d; [reflexivity|].
  change (last (e :: x :: l) d) with (last (x :: l) d).
  now rewrite (IH x d), (IH x e).
Qed.

(** The loop, entered where a run starts, reaches the point where the run
    ends, and has used one unit of gas for each turn. *)
Lemma repeat_loop_iterations (T : Type) (p : Parser T) (n : Z) (fuel : nat)
  (code : jsstring) (run : list (T * Z)) :
  forall (gas : nat) (values : list T) (endIndex : Z),
    iterations p n fuel code (List.length values) endIndex run ->
    Parser.repeat_loop p n fuel (List.length run + gas) code values endIndex
    = Parser.repeat_loop p n fuel gas code (values ++ values_of run)
        (end_of endIndex run).
Proof.
  induction run as [|[v e] run IH]; intros gas values endIndex Hrun.
  - cbn [values_of end_of List.map last List.length Nat.add].
    now rewrite app_nil_r.
  - destruct Hrun as (Hcond & Hp & Hrest).
    cbn [List.length Nat.add Parser.repeat_loop].
    rewrite Hcond, Hp.
    replace (S (List.length values)) with (List.length (values ++ [v]))
      in Hrest by (rewrite length_app; simpl; lia).
    rewrite (IH gas (values ++ [v]) e Hrest).
    unfold values_of, end_of. cbn [List.map fst snd].
    rewrite last_cons_default, <- app_assoc. reflexivity.
Qed.

Lemma values_of_length (T : Type) (run : list (T * Z)) :
  List.length (values_of run) = List.length run.
Proof. unfold values_of. apply length_map. Qed.

(** C2. Let the loop of [p.repeat(n)], started at [P], make the successful
    turns [run], and let [p] fail where the run ends.  That failure is the
    result of [repeat], as it is, if fewer than [n] values have been
    accumulated, or if it is marked [unReversible] (the end of the input not
    being reached, the loop does attempt [p] there).  When it is unmarked and
    at least [n] values have been accumulated, or when the end of the input
    is reached with at least [n] values accumulated, the result is a success
    with the values of the run in order, ending where the last successful
    turn ended ([P] for the empty run). *)
Theorem repeat_spec (T : Type) (p : Parser T) (n : Z) (fuel : nat)
  (code : jsstring) (P : Z) (run : list (T * Z)) :
  iterations p n fuel code 0 P run ->
  (List.length run < fuel)%nat ->
  (forall m fi u,
      parse p fuel code (end_of P run) = Some (Failure m fi u) ->
      Z.of_nat (List.length run) < n
      \/ (truthy u = true /\ end_of P run < jslength code) ->
      parse (Parser.repeat p n) fuel code P = Some (Failure m fi u))
  /\ (forall m fi u,
        parse p fuel code (end_of P run) = Some (Failure m fi u) ->
        truthy u = false ->
        n <= Z.of_nat (List.length run) ->
        parse (Parser.repeat p n) fuel code P
        = Some (Success (values_of run) (end_of P run)))
  /\ (jslength code <= end_of P run ->
      n <= Z.of_nat (List.length run) ->
      parse (Parser.repeat p n) fuel code P
      = Some (Success (values_of run) (end_of P run))).
Proof.
  intros Hrun Hfuel.
  assert (Hloop : parse (Parser.repeat p n) fuel code P
                  = Parser.repeat_loop p n fuel (fuel - List.length run) code
                      (values_of run) (end_of P run)).
  { cbn [parse Parser.repeat].
    replace fuel with (List.length run + (fuel - List.length run))%nat
      at 2 by lia.
    now rewrite (repeat_loop_iterations p n fuel code run _ [] P Hrun). }
  rewrite Hloop.
  destruct (fuel - List.length run)%nat as [|gas] eqn:Hgas; [lia|].
  cbn [Parser.repeat_loop]. rewrite values_of_length.
  split; [|split].
  - intros m fi u Hp Hwhy. unfold Parser.loop_condition.
    destruct Hwhy as [Hn|[Hu Hend]].
    + apply Z.ltb_lt in Hn. rewrite Hn, orb_true_r, Hp, orb_true_r.
      reflexivity.
    + apply Z.ltb_lt in Hend. rewrite Hend, Hp, Hu. reflexivity.
  - intros m fi u Hp Hu Hn.
    destruct (Parser.loop_condition code n (List.length run) (end_of P run));
      [|reflexivity].
    rewrite Hp, Hu.
    apply Z.ltb_ge in Hn. now rewrite Hn.
  - intros Hend Hn. unfold Parser.loop_condition.
    apply Z.ltb_ge in Hend, Hn. now rewrite Hend, Hn.
Qed.

(** At the input [xxa], [word("x").repeat()] makes two turns and stops on
    the unmarked failure at index 2. *)
Lemma repeat_spec_witness :
  parse (Parser.repeat (word (js "x")) 0) 3 (js "xxa") 0
  = Some (Success [js "x"; js "x"] 2).
Proof.
  refine (proj1 (proj2
    (@repeat_spec _ (word (js "x")) 0 3 (js "xxa") 0
       [(js "x", 1); (js "x", 2)] _ _))
    [word_first_message (js "x") (js "a")] 2 None _ _ _).
  - vm_compute. repeat split.
  - vm_compute. lia.
  - reflexivity.
  - reflexivity.
  - vm_compute. discriminate.
Defined.

(** Under a parser that succeeds without consuming input the loop never
    ends: whatever the gas, it is used up. *)
Lemma repeat_loop_NONE_diverges (fuel gas : nat) (values : list unit) :
  Parser.repeat_loop Parser.NONE 0 fuel gas (js "x") values 0 = None.
Proof.
  revert values. induction gas as [|gas IH]; intros values.
  - reflexivity.
  - cbn [Parser.repeat_loop]. 
    change (Parser.loop_condition (js "x") 0 (List.length values) 0)
      with true.
    cbn [parse Parser.NONE]. apply IH.
Qed.

(** C3, as stated, fails twice over.  On the input [a],
    [word("x").unReversible().repeat()] returns the failure of its operand,
    not a success; and on the input [x], [Parser.NONE.repeat()] returns
    nothing at all, however large the bound on the turns of its loop. *)
Lemma repeat_zero_not_always_success :
  (exists m fi u, forall fuel,
      parse (Parser.repeat (Parser.unReversible (word (js "x"))) 0)
            (S fuel) (js "a") 0
      = Some (Failure m fi u))
  /\ (exists (p : Parser unit) (code : jsstring) (P : Z), forall fuel,
        parse (Parser.repeat p 0) fuel code P = None).
Proof.
  split.
  - exists [word_first_message (js "x") (js "a")], 0, (Some true).
    intros fuel. reflexivity.
  - exists Parser.NONE, (js "x"), 0. intros fuel.
    apply repeat_loop_NONE_diverges.
Qed.

Lemma repeat_loop_zero_succeeds (T : Type) (p : Parser T) (fuel : nat)
  (code : jsstring) (P : Z) :
  (forall i, P <= i < jslength code -> exists r, parse p fuel code i = Some r) ->
  (forall i m fi u,
      P <= i < jslength code ->
      parse p fuel code i = Some (Failure m fi u) -> truthy u = false) ->
  (forall i v e,
      P <= i < jslength code ->
      parse p fuel code i = Some (Success v e) -> i < e) ->
  forall (gas : nat) (values : list T) (i : Z),
    P <= i ->
    (Z.to_nat (jslength code - i) <= gas)%nat ->
    exists values' e,
      Parser.repeat_loop p 0 fuel gas code values i
      = Some (Success values' e).
Proof.
  intros Hret Hunmarked Hadv.
  induction gas as [|gas IH]; intros values i Hi Hgas;
    cbn [Parser.repeat_loop]; unfold Parser.loop_condition;
    replace (Z.of_nat (List.length values) <? 0) with false
      by (symmetry; apply Z.ltb_ge; lia);
    rewrite orb_false_r;
    destruct (Z.ltb_spec i (jslength code)) as [Hlt|Hge];
    try (now exists values, i); try lia.
  destruct (Hret i (conj Hi Hlt)) as [[v e|m fi u] Hr]; rewrite Hr.
  - pose proof (Hadv i v e (conj Hi Hlt) Hr) as Hie.
    apply IH; lia.
  - rewrite (Hunmarked i m fi u (conj Hi Hlt) Hr). now exists values, i.
Qed.

(** C3, amended.  When, at every position from the start [P] up to the end
    of the input, [p] returns, fails only unmarked, and ends each of its
    successes after the position where it began, [p.repeat(0)] returns a
    success (its sequence of values may be empty). *)
Theorem repeat_zero_succeeds (T : Type) (p : Parser T) (fuel : nat)
  (code : jsstring) (P : Z) :
  (forall i, P <= i < jslength code -> exists r, parse p fuel code i = Some r) ->
  (forall i m fi u,
      P <= i < jslength code ->
      parse p fuel code i = Some (Failure m fi u) -> truthy u = false) ->
  (forall i v e,
      P <= i < jslength code ->
      parse p fuel code i = Some (Success v e) -> i < e) ->
  (Z.to_nat (jslength code - P) <= fuel)%nat ->
  exists values e,
    parse (Parser.repeat p 0) fuel code P = Some (Success values e).
Proof.
  intros Hret Hunmarked Hadv Hfuel.
  cbn [parse Parser.repeat].
  apply (repeat_loop_zero_succeeds p fuel code Hret Hunmarked Hadv); lia.
Qed.

(** At the input [xxa] the operand [word("x")] returns at every position,
    never marks a failure and consumes one character per success. *)
Lemma repeat_zero_succeeds_witness :
  exists values e,
    parse (Parser.repeat (word (js "x")) 0) 3 (js "xxa") 0
    = Some (Success values e).
Proof.
  apply (@repeat_zero_succeeds _ (word (js "x")) 3 (js "xxa") 0).
  - intros i _. cbn. destruct (jsstring_eqb _ _); eauto.
  - intros i m fi u _. cbn. destruct (jsstring_eqb _ _); [discriminate|].
    intros H. now injection H as _ _ <-.
  - intros i v e _. cbn. destruct (jsstring_eqb _ _); [|discriminate].
    intros H. injection H as _ <-. lia.
  - vm_compute. lia.
Defined.

(** ** The guarantees of the interface *)

(** Splits a goal along the results of the calls of [parse] that the
    combinator under study makes. *)
Ltac cases :=
  repeat match goal with
         | H : context [match parse ?p ?f ?c ?i with _ => _ end] |- _ =>
             let E := fresh "E" in
             destruct (parse p f c i) as [[? ?|? ? ?]|] eqn:E
         | H : context [if truthy ?u then _ else _] |- _ =>
             let E := fresh "E" in destruct (truthy u) eqn:E
         | H : None = Some _ |- _ => discriminate H
         | H : Some (Success _ _) = Some (Failure _ _ _) |- _ => discriminate H
         | H : Some (Failure _ _ _) = Some (Success _ _) |- _ => discriminate H
         | H : Some _ = Some _ |- _ => injection H as; subst
         end.

Section Preservation.

Variables T K : Type.
Variables (a : Parser T) (b : Parser K).

Lemma match_advances filter getMessage :
  advances (Parser.match_ filter getMessage).
Proof.
  intros fuel code P v e H. cbn in H.
  destruct (filter _); [|discriminate]. injection H as _ <-. lia.
Qed.

Lemma match_fails_with_a_message filter getMessage :
  fails_with_a_message (Parser.match_ filter getMessage).
Proof.
  intros fuel code P m fi u H. cbn in H.
  destruct (filter _); [discriminate|]. injection H as <- _ _. discriminate.
Qed.

Lemma NONE_advances : advances Parser.NONE.
Proof. intros fuel code P v e H. injection H as <-. lia. Qed.

Lemma NONE_fails_with_a_message : fails_with_a_message Parser.NONE.
Proof. intros fuel code P m fi u H. discriminate H. Qed.

Lemma dynamic_advances (getParser : unit -> Parser T) :
  advances (getParser tt) -> advances (Parser.dynamic getParser).
Proof. intros Ha fuel code P v e H. exact (Ha _ _ _ _ _ H). Qed.

Lemma dynamic_fails_with_a_message (getParser : unit -> Parser T) :
  fails_with_a_message (getParser tt) ->
  fails_with_a_message (Parser.dynamic getParser).
Proof. intros Ha fuel code P m fi u H. exact (Ha _ _ _ _ _ _ H). Qed.

Lemma map_advances (f : T -> Z -> Z -> K) :
  advances a -> advances (Parser.map a f).
Proof.
  intros Ha fuel code P v e H. cbn [parse Parser.map] in H. cases. eauto.
Qed.

Lemma map_fails_with_a_message (f : T -> Z -> Z -> K) :
  fails_with_a_message a -> fails_with_a_message (Parser.map a f).
Proof.
  intros Ha fuel code P m fi u H. cbn [parse Parser.map] in H. cases.
  eauto.
Qed.

Lemma mapFailMessages_advances (f : list jsstring -> list jsstring) :
  advances a -> advances (Parser.mapFailMessages a f).
Proof.
  intros Ha fuel code P v e H. cbn [parse Parser.mapFailMessages] in H.
  cases. eauto.
Qed.

Lemma mapFailMessages_fails_with_a_message
  (f : list jsstring -> list jsstring) :
  keeps_a_message f ->
  fails_with_a_message a ->
  fails_with_a_message (Parser.mapFailMessages a f).
Proof.
  intros Hf Ha fuel code P m fi u H.
  cbn [parse Parser.mapFailMessages] in H. cases. apply Hf. eauto.
Qed.

Lemma concat_advances :
  advances a -> advances b -> advances (Parser.concat a b).
Proof.
  intros Ha Hb fuel code P v e H. cbn [parse Parser.concat] in H. cases.
  match goal with
  | E1 : parse a _ _ _ = _, E2 : parse b _ _ _ = _ |- _ =>
      pose proof (Ha _ _ _ _ _ E1); pose proof (Hb _ _ _ _ _ E2)
  end.
  lia.
Qed.

Lemma concat_fails_with_a_message :
  fails_with_a_message a -> fails_with_a_message b ->
  fails_with_a_message (Parser.concat a b).
Proof.
  intros Ha Hb fuel code P m fi u H. cbn [parse Parser.concat] in H.
  cases; eauto.
Qed.

Lemma unReversible_advances :
  advances a -> advances (Parser.unReversible a).
Proof.
  intros Ha fuel code P v e H. cbn [parse Parser.unReversible] in H.
  cases. eauto.
Qed.

Lemma unReversible_fails_with_a_message :
  fails_with_a_message a -> fails_with_a_message (Parser.unReversible a).
Proof.
  intros Ha fuel code P m fi u H. cbn [parse Parser.unReversible] in H.
  cases. eauto.
Qed.

Lemma union_advances :
  advances a -> advances b -> advances (Parser.union a b).
Proof.
  intros Ha Hb fuel code P v e H. cbn [parse Parser.union] in H.
  cases; eauto.
Qed.

Lemma union_fails_with_a_message :
  fails_with_a_message a -> fails_with_a_message b ->
  fails_with_a_message (Parser.union a b).
Proof.
  intros Ha Hb fuel code P m fi u H. cbn [parse Parser.union] in H.
  cases; eauto.
  match goal with
  | E : parse a _ _ _ = Some (Failure ?ma _ _) |- ?ma ++ _ <> [] =>
      pose proof (Ha _ _ _ _ _ _ E) as Hma;
      intros Happ; apply app_eq_nil in Happ as [Hnil _]; contradiction
  end.
Qed.

Lemma wrap_advances : advances a -> advances (Parser.wrap a).
Proof.
  intros Ha fuel code P v e H. cbn [parse Parser.wrap] in H. cases. eauto.
Qed.

Lemma wrap_fails_with_a_message :
  fails_with_a_message a -> fails_with_a_message (Parser.wrap a).
Proof.
  intros Ha fuel code P m fi u H. cbn [parse Parser.wrap] in H. cases.
  eauto.
Qed.

Lemma repeat_loop_advances (n : Z) (fuel : nat) (code : jsstring) :
  advances a ->
  forall gas values i vs e,
    Parser.repeat_loop a n fuel gas code values i = Some (Success vs e) ->
    i <= e.
Proof.
  intros Ha. induction gas as [|gas IH]; intros values i vs e H;
    cbn [Parser.repeat_loop] in H;
    destruct (Parser.loop_condition code n (List.length values) i);
    try discriminate; try (injection H as _ <-; lia).
  destruct (parse a fuel code i) as [[v1 e1|m fi u]|] eqn:E;
    try discriminate.
  - pose proof (Ha _ _ _ _ _ E). pose proof (IH _ _ _ _ H). lia.
  - destruct (truthy u || _); [discriminate|]. injection H as _ <-. lia.
Qed.

Lemma repeat_advances (n : Z) : advances a -> advances (Parser.repeat a n).
Proof.
  intros Ha fuel code P v e H. cbn [parse Parser.repeat] in H.
  exact (repeat_loop_advances n fuel code Ha _ _ _ H).
Qed.

Lemma repeat_loop_fails_with_a_message (n : Z) (fuel : nat)
  (code : jsstring) :
  fails_with_a_message a ->
  forall gas values i m fi u,
    Parser.repeat_loop a n fuel gas code values i = Some (Failure m fi u) ->
    m <> [].
Proof.
  intros Ha. induction gas as [|gas IH]; intros values i m fi u H;
    cbn [Parser.repeat_loop] in H;
    destruct (Parser.loop_condition code n (List.length values) i);
    try discriminate.
  destruct (parse a fuel code i) as [[v1 e1|m1 fi1 u1]|] eqn:E;
    try discriminate.
  - exact (IH _ _ _ _ _ H).
  - destruct (truthy u1 || _); [|discriminate].
    injection H as <- _ _. exact (Ha _ _ _ _ _ _ E).
Qed.

Lemma repeat_fails_with_a_message (n : Z) :
  fails_with_a_message a -> fails_with_a_message (Parser.repeat a n).
Proof.
  intros Ha fuel code P m fi u H. cbn [parse Parser.repeat] in H.
  exact (repeat_loop_fails_with_a_message n fuel code Ha _ _ _ H).
Qed.

End Preservation.

Lemma word_steps_advance (w : jsstring) (characters : list jsstring) :
  forall parser : Parser jsstring,
    advances parser -> advances (fold_left (word_step w) characters parser).
Proof.
  induction characters as [|c characters IH]; intros parser Hp; [exact Hp|].
  cbn [fold_left]. apply IH. unfold word_step.
  apply wrap_advances, concat_advances; [exact Hp|apply match_advances].
Qed.

Lemma word_steps_fail_with_a_message (w : jsstring)
  (characters : list jsstring) :
  forall parser : Parser jsstring,
    fails_with_a_message parser ->
    fails_with_a_message (fold_left (word_step w) characters parser).
Proof.
  induction characters as [|c characters IH]; intros parser Hp; [exact Hp|].
  cbn [fold_left]. apply IH. unfold word_step.
  apply wrap_fails_with_a_message, concat_fails_with_a_message;
    [exact Hp|apply match_fails_with_a_message].
Qed.

Lemma word_advances (w : jsstring) : advances (word w).
Proof. apply word_steps_advance, match_advances. Qed.

Lemma word_fails_with_a_message (w : jsstring) :
  fails_with_a_message (word w).
Proof. apply word_steps_fail_with_a_message, match_fails_with_a_message. Qed.

(** The two guarantees pass through a self-reference: a rule whose body
    keeps them for whatever parser keeps them, keeps them itself. *)
Lemma recursive_advances (T : Type) (F : Parser T -> Parser T) :
  (forall x, advances x -> advances (F x)) -> advances (recursive F).
Proof.
  intros HF.
  assert (H : forall depth, advances (unfolding F depth)).
  { induction depth as [|depth IH]; cbn [unfolding].
    - intros fuel code P v e Hn. discriminate Hn.
    - apply HF, dynamic_advances, IH. }
  intros fuel code P v e Hp. exact (H fuel _ _ _ _ _ Hp).
Qed.

Lemma recursive_fails_with_a_message (T : Type) (F : Parser T -> Parser T) :
  (forall x, fails_with_a_message x -> fails_with_a_message (F x)) ->
  fails_with_a_message (recursive F).
Proof.
  intros HF.
  assert (H : forall depth, fails_with_a_message (unfolding F depth)).
  { induction depth as [|depth IH]; cbn [unfolding].
    - intros fuel code P m fi u Hn. discriminate Hn.
    - apply HF, dynamic_fails_with_a_message, IH. }
  intros fuel code P m fi u Hp. exact (H fuel _ _ _ _ _ _ Hp).
Qed.

(** What holds of the rules in scope and passes through every primitive,
    every combinator and every self-reference holds of all that is built
    from them. *)
Lemma in_scope_property (Q : forall T : Type, Parser T -> Prop)
  (known : forall T : Type, Parser T -> Prop) (S : Type) (x : Parser S) :
  Q S x ->
  (forall T p, known T p -> Q T p) ->
  forall T p, in_scope known x p -> Q T p.
Proof.
  intros Hx Hknown T p H. destruct H as [|T p Hp]; [exact Hx|].
  exact (Hknown T p Hp).
Qed.

Lemma ApiIn_advances (ok : (list jsstring -> list jsstring) -> Prop)
  (known : forall T : Type, Parser T -> Prop) (T : Type) (p : Parser T) :
  ApiIn ok known p ->
  (forall T' q, known T' q -> advances q) ->
  advances p.
Proof.
  induction 1 as [known T p Hp
                 |known T F _ IH
                 |known filter getMessage
                 |known w
                 |known
                 |known T getParser _ IH
                 |known T K p f _ IH
                 |known T p f Hf _ IH
                 |known T K a b _ IHa _ IHb
                 |known T K a b _ IHa _ IHb
                 |known T K a b _ IHa _ IHb
                 |known T p _ IH
                 |known T K a b _ IHa _ IHb
                 |known T p n _ IH
                 |known T p _ IH
                 |known T p _ IH];
    intros Hknown.
  - exact (Hknown T p Hp).
  - apply recursive_advances. intros x Hx. apply IH.
    exact (in_scope_property (fun T' q => advances q) Hx Hknown).
  - apply match_advances.
  - apply word_advances.
  - apply NONE_advances.
  - apply dynamic_advances; auto.
  - apply map_advances; auto.
  - apply mapFailMessages_advances; auto.
  - apply concat_advances; auto.
  - unfold Parser.join. apply map_advances, concat_advances; auto.
  - unfold Parser.joinRight. apply map_advances, concat_advances; auto.
  - apply unReversible_advances; auto.
  - apply union_advances; auto.
  - apply repeat_advances; auto.
  - apply wrap_advances; auto.
  - unfold Parser.option. apply union_advances; auto. apply NONE_advances.
Qed.

Lemma ApiIn_fails_with_a_message
  (known : forall T : Type, Parser T -> Prop) (T : Type) (p : Parser T) :
  ApiIn keeps_a_message known p ->
  (forall T' q, known T' q -> fails_with_a_message q) ->
  fails_with_a_message p.
Proof.
  induction 1 as [known T p Hp
                 |known T F _ IH
                 |known filter getMessage
                 |known w
                 |known
                 |known T getParser _ IH
                 |known T K p f _ IH
                 |known T p f Hf _ IH
                 |known T K a b _ IHa _ IHb
                 |known T K a b _ IHa _ IHb
                 |known T K a b _ IHa _ IHb
                 |known T p _ IH
                 |known T K a b _ IHa _ IHb
                 |known T p n _ IH
                 |known T p _ IH
                 |known T p _ IH];
    intros Hknown.
  - exact (Hknown T p Hp).
  - apply recursive_fails_with_a_message. intros x Hx. apply IH.
    exact (in_scope_property (fun T' q => fails_with_a_message q) Hx Hknown).
  - apply match_fails_with_a_message.
  - apply word_fails_with_a_message.
  - apply NONE_fails_with_a_message.
  - apply dynamic_fails_with_a_message; auto.
  - apply map_fails_with_a_message; auto.
  - apply mapFailMessages_fails_with_a_message; auto.
  - apply concat_fails_with_a_message; auto.
  - unfold Parser.join.
    apply map_fails_with_a_message, concat_fails_with_a_message; auto.
  - unfold Parser.joinRight.
    apply map_fails_with_a_message, concat_fails_with_a_message; auto.
  - apply unReversible_fails_with_a_message; auto.
  - apply union_fails_with_a_message; auto.
  - apply repeat_fails_with_a_message; auto.
  - apply wrap_fails_with_a_message; auto.
  - unfold Parser.option. apply union_fails_with_a_message; auto.
    apply NONE_fails_with_a_message.
Qed.

Lemma Api_advances (ok : (list jsstring -> list jsstring) -> Prop)
  (T : Type) (p : Parser T) :
  Api ok p -> advances p.
Proof.
  intros Hp. apply (ApiIn_advances Hp). intros T' q [].
Qed.

Lemma Api_fails_with_a_message (T : Type) (p : Parser T) :
  Api keeps_a_message p -> fails_with_a_message p.
Proof.
  intros Hp. apply (ApiIn_fails_with_a_message Hp). intros T' q [].
Qed.

(** ** The bound on the loops

    Under the primitives and the combinators, a result obtained under one
    bound is the result under every larger bound: the bound decides whether a
    call returns, never what it returns. *)

Section Stability.

Variables T K : Type.
Variables (a : Parser T) (b : Parser K).
Hypothesis a_stable : stable a.
Hypothesis b_stable : stable b.

(** Brings the results of the operands from the smaller bound to the
    larger. *)
Ltac lift Hle :=
  repeat match goal with
         | E : parse a _ _ _ = Some _ |- _ =>
             rewrite (@a_stable _ _ _ _ _ Hle E); clear E
         | E : parse b _ _ _ = Some _ |- _ =>
             rewrite (@b_stable _ _ _ _ _ Hle E); clear E
         end.

Lemma map_stable (f : T -> Z -> Z -> K) : stable (Parser.map a f).
Proof.
  intros fuel fuel' code P r Hle H. cbn [parse Parser.map] in *.
  destruct (parse a fuel code P) as [[v e|m fi u]|] eqn:E;
    [| |discriminate]; lift Hle; exact H.
Qed.

Lemma mapFailMessages_stable (f : list jsstring -> list jsstring) :
  stable (Parser.mapFailMessages a f).
Proof.
  intros fuel fuel' code P r Hle H. cbn [parse Parser.mapFailMessages] in *.
  destruct (parse a fuel code P) as [[v e|m fi u]|] eqn:E;
    [| |discriminate]; lift Hle; exact H.
Qed.

Lemma concat_stable : stable (Parser.concat a b).
Proof.
  intros fuel fuel' code P r Hle H. cbn [parse Parser.concat] in *.
  destruct (parse a fuel code P) as [[v e|m fi u]|] eqn:Ea;
    [| |discriminate]; lift Hle; [|exact H].
  destruct (parse b fuel code e) as [[v2 e2|m fi u]|] eqn:Eb;
    [| |discriminate]; lift Hle; exact H.
Qed.

Lemma unReversible_stable : stable (Parser.unReversible a).
Proof.
  intros fuel fuel' code P r Hle H. cbn [parse Parser.unReversible] in *.
  destruct (parse a fuel code P) as [[v e|m fi u]|] eqn:E;
    [| |discriminate]; lift Hle; exact H.
Qed.

Lemma union_stable : stable (Parser.union a b).
Proof.
  intros fuel fuel' code P r Hle H. cbn [parse Parser.union] in *.
  destruct (parse a fuel code P) as [[v e|m fi u]|] eqn:Ea;
    [| |discriminate]; lift Hle; [exact H|].
  destruct (truthy u); [exact H|].
  destruct (parse b fuel code P) as [[v2 e2|m2 fi2 u2]|] eqn:Eb;
    [| |discriminate]; lift Hle; exact H.
Qed.

Lemma wrap_stable : stable (Parser.wrap a).
Proof.
  intros fuel fuel' code P r Hle H. cbn [parse Parser.wrap] in *.
  destruct (parse a fuel code P) as [[v e|m fi u]|] eqn:E;
    [| |discriminate]; lift Hle; exact H.
Qed.

Lemma repeat_loop_stable (n : Z) (fuel fuel' : nat) (code : jsstring) :
  (fuel <= fuel')%nat ->
  forall gas gas' values i r,
    (gas <= gas')%nat ->
    Parser.repeat_loop a n fuel gas code values i = Some r ->
    Parser.repeat_loop a n fuel' gas' code values i = Some r.
Proof.
  intros Hle. induction gas as [|gas IH]; intros gas' values i r Hgas H;
    destruct gas' as [|gas']; try lia;
    cbn [Parser.repeat_loop] in *;
    destruct (Parser.loop_condition code n (List.length values) i);
    try discriminate; try exact H.
  destruct (parse a fuel code i) as [[v e|m fi u]|] eqn:E;
    [| |discriminate]; lift Hle; [|exact H].
  apply IH; [lia|exact H].
Qed.

Lemma repeat_stable (n : Z) : stable (Parser.repeat a n).
Proof.
  intros fuel fuel' code P r Hle H. cbn [parse Parser.repeat] in *.
  exact (repeat_loop_stable n code Hle _ _ Hle H).
Qed.

End Stability.

Lemma match_stable filter getMessage :
  stable (Parser.match_ filter getMessage).
Proof. intros fuel fuel' code P r _ H. exact H. Qed.

Lemma NONE_stable : stable Parser.NONE.
Proof. intros fuel fuel' code P r _ H. exact H. Qed.

Lemma word_stable (w : jsstring) : stable (word w).
Proof.
  unfold word.
  generalize (Parser.match_ (fun char => strict_eq char (index w 0))
                            (word_first_message w))
             (match_stable (fun char => strict_eq char (index w 0))
                           (word_first_message w)).
  induction (string_iterator (substring_from w 1)) as [|c l IH];
    intros parser Hp; [exact Hp|].
  cbn [fold_left]. apply IH. unfold word_step.
  apply wrap_stable, concat_stable; [exact Hp|apply match_stable].
Qed.

Example nest_parses_nested_parentheses :
  parse nest 3 (js "(())") 0 = Some (Success (inl (js "(())")) 4).
Proof. reflexivity. Qed.

Lemma nest_advances : advances nest.
Proof.
  apply recursive_advances. intros x Hx.
  unfold Parser.option.
  apply union_advances; [|apply NONE_advances].
  apply wrap_advances, concat_advances; [|apply word_advances].
  apply concat_advances; [apply word_advances|exact Hx].
Qed.

(** The rules [nest], [parens] and [brackets] are built from the API:
    their bodies use [word], [concat], [union], [wrap], [option],
    [mapFailMessages] and references to the rules being bound. *)
Lemma nest_is_Api (ok : (list jsstring -> list jsstring) -> Prop) :
  Api ok nest.
Proof.
  apply Api_recursive. intros x.
  apply Api_option, Api_wrap, Api_concat; [|apply Api_word].
  apply Api_concat; [apply Api_word|].
  apply Api_reference, scope_here.
Qed.

Lemma parens_is_Api : Api keeps_a_message parens.
Proof.
  apply Api_recursive. intros x. apply Api_mapFailMessages.
  - intros messages _ H. apply app_eq_nil in H as [_ H]. discriminate H.
  - apply Api_wrap, Api_concat; [apply Api_word|].
    apply Api_union; [|apply Api_word].
    apply Api_reference, scope_here.
Qed.

Lemma brackets_is_Api (ok : (list jsstring -> list jsstring) -> Prop) :
  Api ok brackets.
Proof.
  apply Api_recursive. intros outer.
  apply Api_wrap, Api_concat; [|apply Api_word].
  apply Api_concat; [apply Api_word|].
  apply Api_recursive. intros inner.
  apply Api_wrap, Api_union.
  - apply Api_concat; [|apply Api_word].
    apply Api_concat; [apply Api_word|].
    apply Api_reference, scope_here.
  - apply Api_union; [|apply Api_word].
    apply Api_reference, scope_outer, scope_here.
Qed.

Example brackets_parses_mixed_nesting :
  parse brackets 4 (js "[([.])]") 0 = Some (Success (js "[([.])]") 7).
Proof. reflexivity. Qed.

Example parens_fails_on_unbalanced :
  exists m, parse parens 3 (js "((") 0 = Some (Failure m 1 None).
Proof. eexists. reflexivity. Qed.

(** C9. A parser built from the primitives and the combinators of the API,
    rules that refer to themselves through [Parser.dynamic] included and
    whatever the functions handed to them, never ends a success before the
    start index it was given. *)
Theorem success_ends_at_or_after_start (T : Type) (p : Parser T)
  (fuel : nat) (code : jsstring) (P : Z) (v : T) (e : Z) :
  Api any_map p ->
  parse p fuel code P = Some (Success v e) ->
  P <= e.
Proof.
  intros Hp H. exact (Api_advances Hp _ _ _ H).
Qed.

(** The rule [nest], which refers to itself, between two [word]s. *)
Lemma success_ends_at_or_after_start_witness : 1 <= 7.
Proof.
  refine (@success_ends_at_or_after_start _
    (Parser.concat (word (js "-")) (Parser.joinRight nest (word (js ";"))))
    3 (js "=-(());") 1 (js "-", js ";") 7 _ _).
  - apply Api_concat; [apply Api_word|].
    apply Api_joinRight; [exact (nest_is_Api any_map)|apply Api_word].
  - reflexivity.
Defined.

(** C10, as stated, fails: the function handed to [mapFailMessages] is free
    to drop every message.  At the empty input the parser below, built from
    [Parser.match] and [mapFailMessages] alone, returns a failure whose list
    of messages is empty. *)
Lemma mapFailMessages_can_empty_the_messages :
  Api any_map
    (Parser.mapFailMessages
       (Parser.match_ (fun _ => false) Parser.default_getMessage)
       (fun _ => []))
  /\ parse (Parser.mapFailMessages
              (Parser.match_ (fun _ => false) Parser.default_getMessage)
              (fun _ => []))
           0 [] 0
     = Some (Failure [] 0 None).
Proof.
  split.
  - apply Api_mapFailMessages; [exact I|apply Api_match].
  - reflexivity.
Qed.

(** C10, amended.  A parser built from the primitives and the combinators
    of the API, rules that refer to themselves through [Parser.dynamic]
    included, where every function handed to [mapFailMessages] gives back at
    least one message when given at least one, never returns a failure with
    an empty list of messages. *)
Theorem failure_has_a_message (T : Type) (p : Parser T)
  (fuel : nat) (code : jsstring) (P : Z)
  (m : list jsstring) (fi : Z) (u : option bool) :
  Api keeps_a_message p ->
  parse p fuel code P = Some (Failure m fi u) ->
  m <> [].
Proof.
  intros Hp H. exact (Api_fails_with_a_message Hp _ _ _ H).
Qed.

(** The rule [parens], which refers to itself and rewrites its messages,
    on the unbalanced input [((]. *)
Lemma failure_has_a_message_witness :
  match parse parens 3 (js "((") 0 with
  | Some (Failure m _ _) => m <> []
  | _ => False
  end.
Proof.
  destruct (parse parens 3 (js "((") 0) as [[v e|m fi u]|] eqn:E.
  - vm_compute in E. discriminate E.
  - exact (@failure_has_a_message _ parens 3 (js "((") 0 m fi u
             parens_is_Api E).
  - vm_compute in E. discriminate E.
Defined.

(** ** [word] *)

Lemma index_Some_inv (s : jsstring) (i : Z) (c : jsstring) :
  index s i = Some c ->
  0 <= i /\ exists u, c = [u] /\ nth_error s (Z.to_nat i) = Some u.
Proof.
  unfold index. destruct (Z.ltb_spec i 0) as [|Hi]; [discriminate|].
  destruct (nth_error s (Z.to_nat i)) as [u|]; [|discriminate].
  intros H. injection H as <-. eauto.
Qed.

Lemma firstn_pointwise (literal : jsstring) :
  forall l : jsstring,
    (forall k, (k < List.length literal)%nat ->
               nth_error l k = Some (nth k literal 0)) ->
    firstn (List.length literal) l = literal.
Proof.
  induction literal as [|u literal IH]; intros l H; [reflexivity|].
  assert (H0 : nth_error l 0 = Some u) by (apply (H 0%nat); simpl; lia).
  destruct l as [|x l]; [discriminate H0|].
  cbn [List.length firstn]. f_equal.
  - now injection H0.
  - apply IH. intros k Hk. apply (H (S k)). simpl. lia.
Qed.

(** Where the literal is found, the substring of its length is the
    literal. *)
Lemma substring_matches (literal code : jsstring) (P : Z) :
  literal <> [] ->
  matches_at literal code P ->
  substring code P (P + jslength literal) = literal.
Proof.
  intros Hne Hm.
  assert (Hlen : (0 < List.length literal)%nat)
    by (destruct literal; [contradiction|simpl; lia]).
  destruct (index_Some_inv _ _ (Hm 0%nat Hlen)) as (HP & _).
  rewrite Z.add_0_r in HP.
  assert (Hend : P + jslength literal <= jslength code).
  { assert (Hlast : (List.length literal - 1 < List.length literal)%nat)
      by lia.
    destruct (index_Some_inv _ _ (Hm _ Hlast)) as (_ & u & _ & Hu).
    assert (nth_error code
              (Z.to_nat (P + Z.of_nat (List.length literal - 1))) <> None)
      as Hn by congruence.
    apply nth_error_Some in Hn. unfold jslength. lia. }
  unfold substring, clamp, jslength in *.
  set (n := Z.of_nat (List.length literal)) in *.
  set (len := Z.of_nat (List.length code)) in *.
  replace (Z.max P 0) with P by lia.
  replace (Z.max (P + n) 0) with (P + n) by lia.
  replace (Z.min P len) with P by lia.
  replace (Z.min (P + n) len) with (P + n) by lia.
  replace (Z.min P (P + n)) with P by lia.
  replace (Z.max P (P + n)) with (P + n) by lia.
  replace (Z.to_nat (P + n - P)) with (List.length literal) by lia.
  apply firstn_pointwise. intros k Hk.
  rewrite nth_error_skipn.
  destruct (index_Some_inv _ _ (Hm k Hk)) as (_ & u & Hu & Hnth).
  injection Hu as <-.
  now replace (Z.to_nat P + k)%nat with (Z.to_nat (P + Z.of_nat k)) by lia.
Qed.

(** Either the literal is found, or there is a first index where it is
    not. *)
Lemma matches_or_mismatch (literal code : jsstring) (P : Z) :
  matches_at literal code P \/ exists k, first_mismatch_at literal code P k.
Proof.
  assert (H : forall n, (n <= List.length literal)%nat ->
            (forall k, (k < n)%nat ->
                index code (P + Z.of_nat k) = Some [nth k literal 0])
            \/ exists k, first_mismatch_at literal code P k).
  { induction n as [|n IH]; intros Hn.
    - left. intros k Hk. lia.
    - destruct (IH ltac:(lia)) as [Hall|Hex]; [|now right].
      destruct (index code (P + Z.of_nat n)) as [c|] eqn:E.
      + destruct (list_eq_dec Z.eq_dec c [nth n literal 0]) as [->|Hc].
        * left. intros k Hk.
          destruct (Nat.eq_dec k n) as [->|]; [exact E|apply Hall; lia].
        * right. exists n. repeat split; [lia| |exact Hall].
          rewrite E. congruence.
      + right. exists n. repeat split; [lia| |exact Hall].
        rewrite E. discriminate. }
  destruct (H (List.length literal) (le_n _)) as [Hall|Hex];
    [left; exact Hall|right; exact Hex].
Qed.

Lemma iterates_by_code_unit_without_high_surrogate (s : jsstring) :
  Forall (fun u => is_high_surrogate u = false) s ->
  iterates_by_code_unit s.
Proof.
  unfold iterates_by_code_unit.
  induction 1 as [|u s Hu Hs IH]; [reflexivity|].
  cbn [string_iterator List.map]. rewrite Hu. cbn [andb].
  destruct s as [|v s]; [reflexivity|]. now rewrite IH.
Qed.

Lemma word_prefix_snoc (w : jsstring) (u : codeunit) (l : jsstring)
  (x : codeunit) :
  word_prefix w u (l ++ [x]) = word_step w (word_prefix w u l) [x].
Proof.
  unfold word_prefix. now rewrite map_app, fold_left_app.
Qed.

Lemma substring_from_1 (u : codeunit) (rest : jsstring) :
  substring_from (u :: rest) 1 = rest.
Proof.
  unfold substring_from, substring, clamp, jslength.
  cbn [List.length].
  set (len := Z.of_nat (S (List.length rest))).
  assert (Hlen : len = Z.of_nat (List.length rest) + 1) by lia.
  replace (Z.max 1 0) with 1 by lia.
  replace (Z.max len 0) with len by lia.
  replace (Z.min 1 len) with 1 by lia.
  replace (Z.min len len) with len by lia.
  replace (Z.max 1 len) with len by lia.
  replace (Z.min 1 len) with 1 by lia.
  replace (Z.to_nat (len - 1)) with (List.length rest) by lia.
  change (Z.to_nat 1) with 1%nat. cbn [skipn].
  apply firstn_all.
Qed.

Lemma word_unfold (u : codeunit) (rest : jsstring) :
  iterates_by_code_unit rest ->
  word (u :: rest) = word_prefix (u :: rest) u rest.
Proof.
  intros Hit. unfold word, word_prefix.
  rewrite substring_from_1, Hit. reflexivity.
Qed.

Lemma match_char_hit (x : codeunit) (getMessage : jsstring -> jsstring)
  (fuel : nat) (code : jsstring) (i : Z) :
  index code i = Some [x] ->
  parse (Parser.match_ (fun char => jsstring_eqb char [x]) getMessage)
        fuel code i
  = Some (Success [x] (i + 1)).
Proof.
  intros H. cbn [parse Parser.match_]. rewrite H. cbn [nullish].
  now rewrite jsstring_eqb_refl.
Qed.

Lemma match_char_miss (x : codeunit) (getMessage : jsstring -> jsstring)
  (fuel : nat) (code : jsstring) (i : Z) :
  index code i <> Some [x] ->
  parse (Parser.match_ (fun char => jsstring_eqb char [x]) getMessage)
        fuel code i
  = Some (Failure [getMessage (nullish (index code i) [])] i None).
Proof.
  intros H. cbn [parse Parser.match_].
  destruct (jsstring_eqb (nullish (index code i) []) [x]) eqn:E;
    [|reflexivity].
  apply jsstring_eqb_eq in E. exfalso. apply H.
  destruct (index code i) as [c|]; cbn [nullish] in E;
    [now rewrite E|discriminate E].
Qed.

Lemma matches_at_prefix (u x : codeunit) (l code : jsstring) (P : Z) :
  matches_at (u :: l ++ [x]) code P -> matches_at (u :: l) code P.
Proof.
  intros Hm k Hk.
  rewrite (Hm k) by (cbn [List.length] in *; rewrite length_app; lia).
  change (u :: l ++ [x]) with ((u :: l) ++ [x]).
  now rewrite app_nth1.
Qed.

Lemma word_prefix_spec (w : jsstring) (u : codeunit) (fuel : nat)
  (code : jsstring) (P : Z) :
  forall l : jsstring,
    (matches_at (u :: l) code P ->
     parse (word_prefix w u l) fuel code P
     = Some (Success (u :: l) (P + jslength (u :: l))))
    /\ (forall k,
          first_mismatch_at (u :: l) code P k ->
          parse (word_prefix w u l) fuel code P
          = Some (Failure
                    [message_at w (u :: l) k
                       (nullish (index code (P + Z.of_nat k)) [])]
                    (P + Z.of_nat k) None)).
Proof.
  induction l as [|x l [IHhit IHmiss]] using rev_ind.
  - unfold word_prefix. cbn [List.map fold_left].
    change (fun char => strict_eq char (Some [u]))
      with (fun char => jsstring_eqb char [u]).
    split.
    + intros Hm. specialize (Hm 0%nat (Nat.lt_0_succ _)).
      rewrite Z.add_0_r in Hm. now apply match_char_hit.
    + intros k (Hk & Hne & _). cbn [List.length] in Hk.
      assert (k = 0%nat) as -> by lia.
      cbn [Z.of_nat message_at]. rewrite Z.add_0_r in *.
      now apply match_char_miss.
  - rewrite word_prefix_snoc. unfold word_step.
    assert (Hlen : jslength (u :: l) = Z.of_nat (S (List.length l)))
      by reflexivity.
    assert (Hlen' : jslength (u :: l ++ [x]) = jslength (u :: l) + 1).
    { unfold jslength. cbn [List.length]. rewrite length_app.
      cbn [List.length]. lia. }
    assert (Hx : nth (S (List.length l)) (u :: l ++ [x]) 0 = x).
    { cbn [nth]. apply nth_middle. }
    split.
    + intros Hm.
      assert (Hfirst := IHhit (@matches_at_prefix u x l code P Hm)).
      assert (Hsecond : index code (P + jslength (u :: l)) = Some [x]).
      { rewrite Hlen, <- Hx. apply Hm.
        cbn [List.length]. rewrite length_app. cbn [List.length]. lia. }
      cbn [parse Parser.wrap Parser.concat]. rewrite Hfirst.
      rewrite (match_char_hit _ _ _ _ Hsecond).
      rewrite Hlen', Z.add_assoc.
      rewrite <- (Z.add_assoc P), <- Hlen'.
      rewrite substring_matches; [reflexivity|discriminate|exact Hm].
    + intros k (Hk & Hne & Hbefore).
      cbn [List.length] in Hk. rewrite length_app in Hk.
      cbn [List.length] in Hk.
      destruct (Nat.eq_dec k (S (List.length l))) as [->|Hk'].
      * assert (Hm : matches_at (u :: l) code P).
        { intros j Hj. cbn [List.length] in Hj.
          rewrite (Hbefore j Hj).
          change (u :: l ++ [x]) with ((u :: l) ++ [x]).
          rewrite app_nth1 by (cbn [List.length]; lia). reflexivity. }
        rewrite Hx in Hne. rewrite <- Hlen in *.
        cbn [parse Parser.wrap Parser.concat]. rewrite (IHhit Hm).
        rewrite (match_char_miss _ _ _ _ Hne).
        rewrite Hlen. cbn [message_at]. now rewrite Hx.
      * assert (Hagree : forall j, (j <= k)%nat ->
                  nth j (u :: l ++ [x]) 0 = nth j (u :: l) 0).
        { intros j Hj. change (u :: l ++ [x]) with ((u :: l) ++ [x]).
          apply app_nth1. cbn [List.length]. lia. }
        assert (Hmis : first_mismatch_at (u :: l) code P k).
        { split; [cbn [List.length]; lia|]. split.
          - now rewrite <- Hagree by lia.
          - intros j Hj. rewrite <- Hagree by lia. now apply Hbefore. }
        cbn [parse Parser.wrap Parser.concat]. rewrite (IHmiss k Hmis).
        unfold message_at. now rewrite Hagree by lia.
Qed.

(** [word(literal)] on a literal whose code units after the first come out
    of the string iterator one at a time: it succeeds exactly where the
    literal is found, with the literal as value and ending right after it;
    otherwise it fails, unmarked, at the first index of [code] that differs,
    with the one message of the matcher of that index. *)
Lemma word_spec (u : codeunit) (rest : jsstring) (fuel : nat)
  (code : jsstring) (P : Z) :
  iterates_by_code_unit rest ->
  ((exists v e, parse (word (u :: rest)) fuel code P = Some (Success v e))
   <-> matches_at (u :: rest) code P)
  /\ (matches_at (u :: rest) code P ->
      parse (word (u :: rest)) fuel code P
      = Some (Success (u :: rest) (P + jslength (u :: rest))))
  /\ (forall k,
        first_mismatch_at (u :: rest) code P k ->
        parse (word (u :: rest)) fuel code P
        = Some (Failure
                  [message_at (u :: rest) (u :: rest) k
                     (nullish (index code (P + Z.of_nat k)) [])]
                  (P + Z.of_nat k) None)).
Proof.
  intros Hit. rewrite (word_unfold u Hit).
  destruct (word_prefix_spec (u :: rest) u fuel code P rest) as [Hhit Hmiss].
  split; [|split; assumption].
  split.
  - intros (v & e & Hs).
    destruct (matches_or_mismatch (u :: rest) code P) as [Hm|[k Hk]];
      [exact Hm|].
    rewrite (Hmiss k Hk) in Hs. discriminate Hs.
  - intros Hm. rewrite (Hhit Hm). eauto.
Qed.

Lemma word_spec_witness :
  parse (word (js "xy")) 0 (js "-xyz") 1 = Some (Success (js "xy") 3).
Proof.
  refine (proj1 (proj2 (@word_spec 120 (js "y") 0 (js "-xyz") 1 _)) _).
  - reflexivity.
  - intros [|[|k]] Hk; [reflexivity|reflexivity|].
    cbn [js List.map list_ascii_of_string List.length] in Hk. lia.
Defined.

(** C5 does not hold of a literal with a surrogate pair after its first
    code unit.  The literal [a] followed by U+1F600 has three code units and
    is found at index 0 of the input that consists of it, yet [word] of it
    fails there at index 1: the loop of [word] takes the pair out of the
    string iterator as one character of two code units, and the matcher it
    builds compares that with the single code unit [code[1]]. *)
Theorem word_misses_surrogate_pair (fuel : nat) :
  matches_at [97; 0xD83D; 0xDE00] [97; 0xD83D; 0xDE00] 0
  /\ parse (word [97; 0xD83D; 0xDE00]) fuel [97; 0xD83D; 0xDE00] 0
     = Some (Failure
               [word_next_message [97; 0xD83D; 0xDE00] [0xD83D; 0xDE00]
                                  [0xD83D]]
               1 None).
Proof.
  split; [|reflexivity].
  intros [|[|[|k]]] Hk; try reflexivity.
  cbn [List.length] in Hk. lia.
Qed.

(** C6, as stated, fails: the call [word("")] does not throw.  It returns
    a parser, and that parser reports an ordinary failure when it is run. *)
Lemma word_empty_does_not_throw :
  exists p : Parser jsstring,
    word_call [] = Normal p
    /\ parse p 0 (js "x") 0
       = Some (Failure [word_first_message [] (js "x")] 0 None).
Proof.
  exists (word []). split; reflexivity.
Qed.

(** C6, amended.  The call [word("")] returns normally; the parser it
    returns fails at every input and start index [P]: an unmarked failure at
    [P] with the one message of the first matcher, which no character
    satisfies because [""[0]] is [undefined]. *)
Theorem word_empty_always_fails (fuel : nat) (code : jsstring) (P : Z) :
  word_call [] = Normal (word [])
  /\ parse (word []) fuel code P
     = Some (Failure [word_first_message [] (nullish (index code P) [])]
                     P None).
Proof.
  split; reflexivity.
Qed.

(** * Further properties of the combinators *)

(** Splits a goal along the results of the calls of [parse] and the
    [unReversible] marks it inspects, and closes the branches that compute. *)
Ltac reduce_parse :=
  cbn [parse Parser.map Parser.mapFailMessages Parser.concat Parser.join
       Parser.joinRight Parser.unReversible Parser.union Parser.wrap
       Parser.option Parser.NONE Parser.dynamic never
       truthy fst snd pair_assoc sum_assoc].

Ltac crunch :=
  reduce_parse;
  repeat (match goal with
          | |- context [match parse ?p ?f ?c ?i with _ => _ end] =>
              destruct (parse p f c i) as [[? ?|? ? ?]|]
          | |- context [if truthy ?u then _ else _] =>
              destruct (truthy u) eqn:?
          end; reduce_parse);
  try reflexivity; try discriminate.

(** ** Laws of composition *)

(** [a.concat(b).concat(c)] and [a.concat(b.concat(c))] give the same
    results at every input and start index, the value of the second being
    regrouped: the end index is the same, and so is every failure. *)
Theorem concat_assoc (A B C : Type) (a : Parser A) (b : Parser B)
  (c : Parser C) (fuel : nat) (code : jsstring) (P : Z) :
  parse (Parser.concat (Parser.concat a b) c) fuel code P
  = parse (Parser.map (Parser.concat a (Parser.concat b c))
                      (fun v _ _ => pair_assoc v))
          fuel code P.
Proof. crunch. Qed.

(** [a.union(b).union(c)] and [a.union(b.union(c))] give the same results
    at every input and start index, the value of the second being regrouped:
    a failure marked [unReversible] stops both at the same operand, and when
    all three fail unmarked both report at the start index the messages of
    [a], then [b], then [c]. *)
Theorem union_assoc (A B C : Type) (a : Parser A) (b : Parser B)
  (c : Parser C) (fuel : nat) (code : jsstring) (P : Z) :
  parse (Parser.union (Parser.union a b) c) fuel code P
  = parse (Parser.map (Parser.union a (Parser.union b c))
                      (fun v _ _ => sum_assoc v))
          fuel code P.
Proof. crunch. now rewrite app_assoc. Qed.

(** [Parser.NONE] is neutral for sequencing when its value is dropped:
    [p.join(Parser.NONE)] and [Parser.NONE.joinRight(p)] give the results of
    [p], success or failure, at every input and start index. *)
Theorem join_NONE (T : Type) (p : Parser T) (fuel : nat) (code : jsstring)
  (P : Z) :
  parse (Parser.join p Parser.NONE) fuel code P = parse p fuel code P
  /\ parse (Parser.joinRight Parser.NONE p) fuel code P = parse p fuel code P.
Proof. split; crunch. Qed.

(** [a.join(b)] and [a.joinRight(b)] succeed exactly when [a] succeeds at
    [P] and [b] succeeds where [a] ended; both end where [b] ended, [join]
    with the value of [a] and [joinRight] with the value of [b].  Both return
    the failure of [a], or else the failure of [b], as it is. *)
Theorem join_joinRight_spec (T K : Type) (a : Parser T) (b : Parser K)
  (fuel : nat) (code : jsstring) (P : Z) :
  (forall v1 e,
      parse (Parser.join a b) fuel code P = Some (Success v1 e)
      <-> exists e1 v2,
            parse a fuel code P = Some (Success v1 e1)
            /\ parse b fuel code e1 = Some (Success v2 e))
  /\ (forall v2 e,
        parse (Parser.joinRight a b) fuel code P = Some (Success v2 e)
        <-> exists v1 e1,
              parse a fuel code P = Some (Success v1 e1)
              /\ parse b fuel code e1 = Some (Success v2 e))
  /\ (forall m fi u,
        parse a fuel code P = Some (Failure m fi u) ->
        parse (Parser.join a b) fuel code P = Some (Failure m fi u)
        /\ parse (Parser.joinRight a b) fuel code P = Some (Failure m fi u))
  /\ (forall v1 e1 m fi u,
        parse a fuel code P = Some (Success v1 e1) ->
        parse b fuel code e1 = Some (Failure m fi u) ->
        parse (Parser.join a b) fuel code P = Some (Failure m fi u)
        /\ parse (Parser.joinRight a b) fuel code P = Some (Failure m fi u)).
Proof.
  split; [|split; [|split]].
  - intros v1 e. cbn [parse Parser.join Parser.map Parser.concat]. split.
    + destruct (parse a fuel code P) as [[x e1|m fi u]|]; try discriminate.
      destruct (parse b fuel code e1) as [[y e2|m fi u]|] eqn:Eb;
        try discriminate.
      intros H. injection H as <- <-. eauto.
    + intros (e1 & v2 & -> & ->). reflexivity.
  - intros v2 e. cbn [parse Parser.joinRight Parser.map Parser.concat]. split.
    + destruct (parse a fuel code P) as [[x e1|m fi u]|]; try discriminate.
      destruct (parse b fuel code e1) as [[y e2|m fi u]|] eqn:Eb;
        try discriminate.
      intros H. injection H as <- <-. eauto.
    + intros (v1 & e1 & -> & ->). reflexivity.
  - intros m fi u Ha.
    split; cbn [parse Parser.join Parser.joinRight Parser.map Parser.concat];
      now rewrite Ha.
  - intros v1 e1 m fi u Ha Hb.
    split; cbn [parse Parser.join Parser.joinRight Parser.map Parser.concat];
      now rewrite Ha, Hb.
Qed.

(** Mapping twice is mapping once with the composed function, which sees the
    same start and end index; mapping with the function that returns its
    first argument changes nothing. *)
Theorem map_laws (T K L : Type) (p : Parser T) (f : T -> Z -> Z -> K)
  (g : K -> Z -> Z -> L) (fuel : nat) (code : jsstring) (P : Z) :
  parse (Parser.map (Parser.map p f) g) fuel code P
  = parse (Parser.map p (fun v s e => g (f v s e) s e)) fuel code P
  /\ parse (Parser.map p (fun v _ _ => v)) fuel code P = parse p fuel code P.
Proof. split; crunch. Qed.

(** [mapFailMessages] composes, and it commutes with [map] and with
    [unReversible].  A failure of the operand comes out with its messages
    rewritten and with the same fail index and the same [unReversible] field;
    a success comes out as it is. *)
Theorem mapFailMessages_laws (T K : Type) (p : Parser T)
  (f g : list jsstring -> list jsstring) (h : T -> Z -> Z -> K)
  (fuel : nat) (code : jsstring) (P : Z) :
  parse (Parser.mapFailMessages (Parser.mapFailMessages p f) g) fuel code P
  = parse (Parser.mapFailMessages p (fun m => g (f m))) fuel code P
  /\ parse (Parser.mapFailMessages (Parser.map p h) f) fuel code P
     = parse (Parser.map (Parser.mapFailMessages p f) h) fuel code P
  /\ parse (Parser.mapFailMessages (Parser.unReversible p) f) fuel code P
     = parse (Parser.unReversible (Parser.mapFailMessages p f)) fuel code P
  /\ (forall m fi u,
        parse p fuel code P = Some (Failure m fi u) ->
        parse (Parser.mapFailMessages p f) fuel code P
        = Some (Failure (f m) fi u))
  /\ (forall v e,
        parse p fuel code P = Some (Success v e) ->
        parse (Parser.mapFailMessages p f) fuel code P
        = Some (Success v e)).
Proof.
  split; [crunch|]. split; [crunch|]. split; [crunch|]. split.
  - intros m fi u Hp. cbn [parse Parser.mapFailMessages]. now rewrite Hp.
  - intros v e Hp. cbn [parse Parser.mapFailMessages]. now rewrite Hp.
Qed.


(** [wrap] looks only at where its operand ended: the value the operand
    produced is dropped, so wrapping a mapped parser, or wrapping twice, is
    wrapping once. *)
Theorem wrap_absorbs (T K : Type) (p : Parser T) (f : T -> Z -> Z -> K)
  (fuel : nat) (code : jsstring) (P : Z) :
  parse (Parser.wrap (Parser.map p f)) fuel code P
  = parse (Parser.wrap p) fuel code P
  /\ parse (Parser.wrap (Parser.wrap p)) fuel code P
     = parse (Parser.wrap p) fuel code P.
Proof. split; crunch. Qed.

(** ** What a result of [repeat] tells *)

(** Every result of the loop comes from a run of successful turns: a
    success holds the values of the run and stopped at the end of the input
    or on an unmarked failure, with the minimum reached; a failure is the one
    the operand returned where the run ended, marked or short of the
    minimum. *)
Lemma repeat_loop_inv (T : Type) (p : Parser T) (n : Z) (fuel : nat)
  (code : jsstring) :
  forall (gas : nat) (values : list T) (i : Z) (r : Result (list T)),
    Parser.repeat_loop p n fuel gas code values i = Some r ->
    exists run : list (T * Z),
      iterations p n fuel code (List.length values) i run
      /\ match r with
         | Success vs e =>
             vs = values ++ values_of run
             /\ e = end_of i run
             /\ n <= Z.of_nat (List.length vs)
             /\ (jslength code <= e
                 \/ exists m fi u,
                      parse p fuel code e = Some (Failure m fi u)
                      /\ truthy u = false)
         | Failure m fi u =>
             parse p fuel code (end_of i run) = Some (Failure m fi u)
             /\ (truthy u = true
                 \/ Z.of_nat (List.length values + List.length run) < n)
         end.
Proof.
  induction gas as [|gas IH]; intros values i r H;
    cbn [Parser.repeat_loop] in H;
    destruct (Parser.loop_condition code n (List.length values) i) eqn:Hc;
    try discriminate.
  1, 3: injection H as <-; exists []; split; [exact I|];
        unfold Parser.loop_condition in Hc;
        apply orb_false_iff in Hc as [Hend Hn];
        apply Z.ltb_ge in Hend, Hn;
        cbn [values_of end_of List.map last]; rewrite app_nil_r;
        repeat split; [exact Hn|left; exact Hend].
  destruct (parse p fuel code i) as [[v e|m fi u]|] eqn:Hp; try discriminate.
  - destruct (IH _ _ _ H) as (run & Hrun & Hr).
    rewrite length_app in Hrun. cbn [List.length] in Hrun.
    rewrite Nat.add_1_r in Hrun.
    exists ((v, e) :: run). split; [cbn [iterations]; auto|].
    unfold values_of, end_of in *. cbn [List.map fst snd].
    rewrite last_cons_default.
    destruct r as [vs e'|m fi u].
    + rewrite <- app_assoc in Hr. exact Hr.
    + rewrite length_app in Hr. cbn [List.length] in *.
      destruct Hr as [Hf Hwhy]. split; [exact Hf|].
      destruct Hwhy as [Hu|Hn]; [now left|right; lia].
  - exists []. split; [exact I|].
    cbn [values_of end_of List.map last List.length].
    destruct (truthy u) eqn:Hu; cbn [orb] in H.
    + injection H as <-. split; [exact Hp|now left].
    + destruct (Z.ltb_spec (Z.of_nat (List.length values)) n) as [Hn|Hn];
        injection H as <-.
      * split; [exact Hp|right; lia].
      * rewrite app_nil_r. repeat split; [exact Hn|].
        right. exists m, fi, u. auto.
Qed.

(** A success of [p.repeat(n)] holds the values of consecutive successes of
    [p], the first at the start index and each next one where the one before
    ended; it ends where the last of them ended; it holds at least [n]
    values; and it stopped either at or past the end of the input or where
    [p] fails without the [unReversible] mark. *)
Theorem repeat_success_inv (T : Type) (p : Parser T) (n : Z) (fuel : nat)
  (code : jsstring) (P : Z) (vs : list T) (e : Z) :
  parse (Parser.repeat p n) fuel code P = Some (Success vs e) ->
  exists run : list (T * Z),
    iterations p n fuel code 0 P run
    /\ vs = values_of run
    /\ e = end_of P run
    /\ n <= Z.of_nat (List.length vs)
    /\ (jslength code <= e
        \/ exists m fi u,
             parse p fuel code e = Some (Failure m fi u)
             /\ truthy u = false).
Proof.
  intros H. cbn [parse Parser.repeat] in H.
  destruct (repeat_loop_inv p n fuel code _ _ _ H) as (run & Hrun & Hr).
  exists run. split; [exact Hrun|exact Hr].
Qed.

Lemma repeat_success_inv_witness :
  exists run : list (jsstring * Z),
    iterations (word (js "x")) 1 3 (js "xxa") 0 0 run
    /\ [js "x"; js "x"] = values_of run
    /\ 2 = end_of 0 run
    /\ 1 <= Z.of_nat (List.length [js "x"; js "x"])
    /\ (jslength (js "xxa") <= 2
        \/ exists m fi u,
             parse (word (js "x")) 3 (js "xxa") 2 = Some (Failure m fi u)
             /\ truthy u = false).
Proof.
  apply (@repeat_success_inv _ (word (js "x")) 1 3 (js "xxa") 0).
  reflexivity.
Defined.

(** A failure of [p.repeat(n)] is a failure that [p] itself returned, with
    the same messages, fail index and mark, at the position reached by
    consecutive successes of [p] from the start index; and it is marked
    [unReversible] or came before [n] values were accumulated. *)
Theorem repeat_failure_inv (T : Type) (p : Parser T) (n : Z) (fuel : nat)
  (code : jsstring) (P : Z) (m : list jsstring) (fi : Z) (u : option bool) :
  parse (Parser.repeat p n) fuel code P = Some (Failure m fi u) ->
  exists run : list (T * Z),
    iterations p n fuel code 0 P run
    /\ parse p fuel code (end_of P run) = Some (Failure m fi u)
    /\ (truthy u = true \/ Z.of_nat (List.length run) < n).
Proof.
  intros H. cbn [parse Parser.repeat] in H.
  destruct (repeat_loop_inv p n fuel code _ _ _ H) as (run & Hrun & Hr).
  exists run. split; [exact Hrun|exact Hr].
Qed.

Lemma repeat_failure_inv_witness :
  exists run : list (jsstring * Z),
    iterations (word (js "x")) 3 3 (js "xxa") 0 0 run
    /\ parse (word (js "x")) 3 (js "xxa") (end_of 0 run)
       = Some (Failure [word_first_message (js "x") (js "a")] 2 None)
    /\ (truthy None = true \/ Z.of_nat (List.length run) < 3).
Proof.
  apply (@repeat_failure_inv _ (word (js "x")) 3 3 (js "xxa") 0).
  reflexivity.
Defined.

(** Under a parser marked [unReversible] a repetition cannot stop early: a
    success of [p.unReversible().repeat(n)] ends at or past the end of the
    input (and holds at least [n] values). *)
Theorem repeat_unReversible_reaches_end (T : Type) (p : Parser T) (n : Z)
  (fuel : nat) (code : jsstring) (P : Z) (vs : list T) (e : Z) :
  parse (Parser.repeat (Parser.unReversible p) n) fuel code P
  = Some (Success vs e) ->
  jslength code <= e /\ n <= Z.of_nat (List.length vs).
Proof.
  intros H. cbn [parse Parser.repeat] in H.
  destruct (repeat_loop_inv _ n fuel code _ _ _ H)
    as (run & _ & _ & _ & Hn & [Hend|(m & fi & u & Hf & Hu)]).
  - auto.
  - cbn [parse Parser.unReversible] in Hf.
    destruct (parse p fuel code e) as [[? ?|? ? ?]|]; try discriminate.
    injection Hf as _ _ <-. discriminate Hu.
Qed.

Lemma repeat_unReversible_reaches_end_witness :
  jslength (js "xx") <= 2
  /\ 0 <= Z.of_nat (List.length [js "x"; js "x"]).
Proof.
  apply (@repeat_unReversible_reaches_end _ (word (js "x")) 0 2 (js "xx") 0).
  reflexivity.
Defined.

(** ** Termination of [repeat] *)

Lemma repeat_loop_returns (T : Type) (p : Parser T) (n : Z) (fuel : nat)
  (code : jsstring) (P : Z) :
  (forall i, P <= i -> exists r, parse p fuel code i = Some r) ->
  (forall i v e, P <= i -> parse p fuel code i = Some (Success v e) -> i < e) ->
  forall (gas : nat) (values : list T) (i : Z),
    P <= i ->
    (Z.to_nat (jslength code - i) <= gas)%nat ->
    (Z.to_nat (n - Z.of_nat (List.length values)) <= gas)%nat ->
    exists r, Parser.repeat_loop p n fuel gas code values i = Some r.
Proof.
  intros Hret Hadv.
  induction gas as [|gas IH]; intros values i Hi Hlen Hn;
    cbn [Parser.repeat_loop];
    destruct (Parser.loop_condition code n (List.length values) i) eqn:Hc;
    eauto.
  - unfold Parser.loop_condition in Hc. apply orb_true_iff in Hc.
    destruct Hc as [Hc|Hc]; apply Z.ltb_lt in Hc; lia.
  - destruct (Hret i Hi) as [[v e|m fi u] Hr]; rewrite Hr.
    + pose proof (Hadv i v e Hi Hr) as Hie.
      apply IH; [lia|lia|]. rewrite length_app. cbn [List.length]. lia.
    + destruct (truthy u || _); eauto.
Qed.

(** When [p] returns at every position from the start index on and ends
    each success after the position where it began, [p.repeat(n)] returns,
    for every minimum [n]: its loop makes at most as many turns as there are
    characters left, or [n] turns if that is more. *)
Theorem repeat_returns (T : Type) (p : Parser T) (n : Z) (fuel : nat)
  (code : jsstring) (P : Z) :
  (forall i, P <= i -> exists r, parse p fuel code i = Some r) ->
  (forall i v e, P <= i -> parse p fuel code i = Some (Success v e) -> i < e) ->
  (Z.to_nat (jslength code - P) <= fuel)%nat ->
  (Z.to_nat n <= fuel)%nat ->
  exists r, parse (Parser.repeat p n) fuel code P = Some r.
Proof.
  intros Hret Hadv Hlen Hn. cbn [parse Parser.repeat].
  apply (repeat_loop_returns p n fuel code Hret Hadv);
    [lia|exact Hlen|cbn [List.length]; lia].
Qed.

(** [Parser.match(() => true).repeat(5)] on [ab]: the operand consumes one
    position at each call, also past the end of the input. *)
Lemma repeat_returns_witness :
  exists r,
    parse (Parser.repeat
             (Parser.match_ (fun _ => true) Parser.default_getMessage) 5)
          5 (js "ab") 0
    = Some r.
Proof.
  apply (@repeat_returns _
           (Parser.match_ (fun _ => true) Parser.default_getMessage)
           5 5 (js "ab") 0).
  - intros i _. cbn. eauto.
  - intros i v e _. cbn. intros H. injection H as _ <-. lia.
  - vm_compute. lia.
  - vm_compute. lia.
Defined.

(** ** Repeating a single-character matcher *)

Lemma take_while_length (filter : jsstring -> bool) (s : jsstring) :
  (List.length (take_while filter s) <= List.length s)%nat.
Proof.
  induction s as [|x s IH]; cbn [take_while List.length]; [lia|].
  destruct (filter [x]); cbn [List.length]; lia.
Qed.

Lemma index_app_here (pre s : jsstring) (x : codeunit) :
  index (pre ++ x :: s) (Z.of_nat (List.length pre)) = Some [x].
Proof.
  unfold index.
  destruct (Z.ltb_spec (Z.of_nat (List.length pre)) 0) as [Hneg|_]; [lia|].
  rewrite Nat2Z.id, nth_error_app2 by lia.
  now rewrite Nat.sub_diag.
Qed.

Lemma repeat_loop_match (filter : jsstring -> bool)
  (getMessage : jsstring -> jsstring) (fuel : nat) :
  forall (s pre : jsstring) (gas : nat) (values : list jsstring),
    (List.length s <= gas)%nat ->
    Parser.repeat_loop (Parser.match_ filter getMessage) 0 fuel gas
      (pre ++ s) values (Z.of_nat (List.length pre))
    = Some (Success
              (values ++ List.map (fun x => [x]) (take_while filter s))
              (Z.of_nat (List.length pre)
               + Z.of_nat (List.length (take_while filter s)))).
Proof.
  induction s as [|x s IH]; intros pre gas values Hgas.
  - destruct gas; cbn [Parser.repeat_loop take_while List.map List.length];
      unfold Parser.loop_condition, jslength;
      rewrite app_nil_r, Z.ltb_irrefl;
      (replace (Z.of_nat (List.length values) <? 0) with false
        by (symmetry; apply Z.ltb_ge; lia));
      cbn [orb]; now rewrite app_nil_r, Z.add_0_r.
  - destruct gas as [|gas]; [cbn [List.length] in Hgas; lia|].
    cbn [Parser.repeat_loop]. unfold Parser.loop_condition, jslength.
    replace (Z.of_nat (List.length pre)
             <? Z.of_nat (List.length (pre ++ x :: s))) with true
      by (symmetry; apply Z.ltb_lt; rewrite length_app;
          cbn [List.length]; lia).
    cbn [orb parse Parser.match_].
    rewrite index_app_here. cbn [nullish take_while].
    destruct (filter [x]).
    + replace (pre ++ x :: s) with ((pre ++ [x]) ++ s)
        by (now rewrite <- app_assoc).
      replace (Z.of_nat (List.length pre) + 1)
        with (Z.of_nat (List.length (pre ++ [x])))
        by (rewrite length_app; cbn [List.length]; lia).
      rewrite IH by (cbn [List.length] in Hgas; lia).
      cbn [List.map List.length]. rewrite <- app_assoc.
      rewrite length_app. cbn [List.length app].
      do 2 f_equal. lia.
    + replace (Z.of_nat (List.length values) <? 0) with false
        by (symmetry; apply Z.ltb_ge; lia).
      cbn [orb truthy List.map List.length].
      now rewrite app_nil_r, Z.add_0_r.
Qed.

(** [Parser.match(filter).repeat()], started at an index [P] of the input
    (or at its end), takes the characters that satisfy [filter] for as long
    as they do: it succeeds with the longest run of such characters from [P]
    on, one value for each, and ends right after it.  What [filter] says of
    the empty string does not matter: the loop stops at the end of the
    input. *)
Theorem repeat_match_takes_while (filter : jsstring -> bool)
  (getMessage : jsstring -> jsstring) (fuel : nat) (code : jsstring)
  (P : Z) :
  0 <= P <= jslength code ->
  (Z.to_nat (jslength code - P) <= fuel)%nat ->
  parse (Parser.repeat (Parser.match_ filter getMessage) 0) fuel code P
  = Some (Success
            (List.map (fun x => [x])
               (take_while filter (skipn (Z.to_nat P) code)))
            (P + Z.of_nat (List.length
                             (take_while filter (skipn (Z.to_nat P) code))))).
Proof.
  intros [HP Hend] Hfuel. unfold jslength in *.
  cbn [parse Parser.repeat].
  remember (skipn (Z.to_nat P) code) as s eqn:Hs.
  remember (firstn (Z.to_nat P) code) as pre eqn:Hpre.
  assert (Hcode : pre ++ s = code) by (subst; apply firstn_skipn).
  assert (HP' : Z.of_nat (List.length pre) = P)
    by (subst pre; rewrite length_firstn; lia).
  assert (Hlen : (List.length s <= fuel)%nat)
    by (subst s; rewrite length_skipn; lia).
  pose proof (repeat_loop_match filter getMessage fuel s pre [] Hlen) as H.
  rewrite Hcode, HP' in H. exact H.
Qed.

Lemma repeat_match_takes_while_witness :
  parse (Parser.repeat
           (Parser.match_ (fun c => jsstring_eqb c (js " "))
                          Parser.default_getMessage) 0)
        4 (js "a  b") 1
  = Some (Success [js " "; js " "] 3).
Proof.
  refine (@repeat_match_takes_while
            (fun c => jsstring_eqb c (js " ")) Parser.default_getMessage
            4 (js "a  b") 1 _ _).
  - vm_compute. split; discriminate.
  - vm_compute. lia.
Defined.

(** ** The text that [wrap] returns *)

Lemma substring_inside (s : jsstring) (a b : Z) :
  0 <= a <= b -> b <= jslength s ->
  substring s a b = firstn (Z.to_nat (b - a)) (skipn (Z.to_nat a) s).
Proof.
  intros Hab Hb. unfold substring, clamp.
  replace (Z.max a 0) with a by lia.
  replace (Z.max b 0) with b by lia.
  replace (Z.min a (jslength s)) with a by lia.
  replace (Z.min b (jslength s)) with b by lia.
  replace (Z.min a b) with a by lia.
  replace (Z.max a b) with b by lia.
  reflexivity.
Qed.

(** When [p] succeeds from [P] to an end index [e] inside the input,
    [p.wrap()] succeeds with the same end index and with the text consumed:
    a string of [e - P] characters whose character at each index [k] is the
    character of the input at [P + k]. *)
Theorem wrap_returns_the_span (T : Type) (p : Parser T) (fuel : nat)
  (code : jsstring) (P : Z) (v : T) (e : Z) :
  parse p fuel code P = Some (Success v e) ->
  0 <= P <= e ->
  e <= jslength code ->
  exists s : jsstring,
    parse (Parser.wrap p) fuel code P = Some (Success s e)
    /\ jslength s = e - P
    /\ forall k, 0 <= k < e - P -> index s k = index code (P + k).
Proof.
  intros Hp HP He.
  exists (substring code P e). cbn [parse Parser.wrap]. rewrite Hp.
  split; [reflexivity|].
  rewrite (substring_inside code HP He). unfold jslength in *.
  split.
  - rewrite length_firstn, length_skipn. lia.
  - intros k Hk. unfold index.
    destruct (Z.ltb_spec k 0) as [|_]; [lia|].
    destruct (Z.ltb_spec (P + k) 0) as [|_]; [lia|].
    rewrite nth_error_firstn, nth_error_skipn.
    replace (Z.to_nat k <? Z.to_nat (e - P))%nat with true
      by (symmetry; apply Nat.ltb_lt; lia).
    now replace (Z.to_nat P + Z.to_nat k)%nat with (Z.to_nat (P + k)) by lia.
Qed.

Lemma wrap_returns_the_span_witness :
  exists s : jsstring,
    parse (Parser.wrap (Parser.repeat (word (js "x")) 0)) 3 (js "-xxa") 1
    = Some (Success s 3)
    /\ jslength s = 3 - 1
    /\ forall k, 0 <= k < 3 - 1 -> index s k = index (js "-xxa") (1 + k).
Proof.
  refine (@wrap_returns_the_span _ (Parser.repeat (word (js "x")) 0) 3
            (js "-xxa") 1 [js "x"; js "x"] 3 _ _ _).
  - reflexivity.
  - lia.
  - vm_compute. discriminate.
Defined.

(** ** The shape of the results of [word] *)

Lemma match_shaped filter getMessage :
  shaped 1 (Parser.match_ filter getMessage).
Proof.
  intros fuel code P. cbn [parse Parser.match_].
  destruct (filter _); eexists; (split; [reflexivity|]); cbn; auto.
  repeat split; lia.
Qed.

Lemma word_step_shaped (w : jsstring) (k : Z) (parser : Parser jsstring)
  (character : jsstring) :
  0 <= k ->
  shaped k parser -> shaped (k + 1) (word_step w parser character).
Proof.
  intros Hk Hp fuel code P. unfold word_step.
  cbn [parse Parser.wrap Parser.concat].
  destruct (Hp fuel code P) as ([v e|m fi u] & -> & Hr).
  - destruct (match_shaped (fun char => jsstring_eqb char character)
                (word_next_message w character) fuel code e)
      as ([v2 e2|m fi u] & -> & Hr2); eexists; (split; [reflexivity|]).
    + cbn. lia.
    + cbn. destruct Hr2 as (-> & Hm & Hfi). repeat split; [exact Hm|lia|lia].
  - eexists. split; [reflexivity|].
    destruct Hr as (-> & Hm & Hfi). repeat split; [exact Hm|lia|lia].
Qed.

Lemma word_steps_shaped (w : jsstring) (characters : list jsstring) :
  forall (k : Z) (parser : Parser jsstring),
    0 <= k ->
    shaped k parser ->
    shaped (k + Z.of_nat (List.length characters))
           (fold_left (word_step w) characters parser).
Proof.
  induction characters as [|c characters IH]; intros k parser Hk Hp.
  - cbn [fold_left List.length Z.of_nat]. now rewrite Z.add_0_r.
  - cbn [fold_left List.length].
    replace (k + Z.of_nat (S (List.length characters)))
      with ((k + 1) + Z.of_nat (List.length characters)) by lia.
    apply IH; [lia|]. now apply word_step_shaped.
Qed.

(** For every literal, the empty one included, [word(literal)] returns at
    every input and start index [P].  With [n] the number of characters its
    loop takes from the literal after the first code unit: a success ends at
    [P + 1 + n]; a failure carries exactly one message and no [unReversible]
    mark, and its fail index lies from [P] to [P + n]. *)
Theorem word_result_shape (literal : jsstring) (fuel : nat)
  (code : jsstring) (P : Z) :
  exists r,
    parse (word literal) fuel code P = Some r
    /\ match r with
       | Success _ e =>
           e = P + 1
               + Z.of_nat (List.length
                             (string_iterator (substring_from literal 1)))
       | Failure m fi u =>
           u = None
           /\ List.length m = 1%nat
           /\ P <= fi
              <= P + Z.of_nat (List.length
                                 (string_iterator (substring_from literal 1)))
       end.
Proof.
  destruct (@word_steps_shaped literal
              (string_iterator (substring_from literal 1)) 1
              (Parser.match_ (fun char => strict_eq char (index literal 0))
                             (word_first_message literal))
              ltac:(lia) (match_shaped _ _) fuel code P)
    as (r & Hr & Hshape).
  exists r. split; [exact Hr|].
  destruct r as [v e|m fi u]; [lia|].
  destruct Hshape as (Hu & Hm & Hfi). repeat split; auto; lia.
Qed.

(** ** Where [word] can succeed *)

Lemma word_steps_success_base (w : jsstring) (characters : list jsstring)
  (fuel : nat) (code : jsstring) (P : Z) :
  forall (parser : Parser jsstring) v e,
    parse (fold_left (word_step w) characters parser) fuel code P
    = Some (Success v e) ->
    exists v0 e0, parse parser fuel code P = Some (Success v0 e0).
Proof.
  induction characters as [|c characters IH]; intros parser v e H.
  - eauto.
  - cbn [fold_left] in H. destruct (IH _ _ _ H) as (v1 & e1 & H1).
    unfold word_step in H1. cbn [parse Parser.wrap Parser.concat] in H1.
    destruct (parse parser fuel code P) as [[v0 e0|? ? ?]|];
      try discriminate.
    eauto.
Qed.

Lemma character_length (code : jsstring) (i : Z) :
  (List.length (nullish (index code i) []) <= 1)%nat.
Proof.
  unfold index. destruct (i <? 0); [cbn; lia|].
  destruct (nth_error code (Z.to_nat i)); cbn; lia.
Qed.

(** The loop of [word] can lead to a success only if each character it took
    from the literal is at most one code unit long. *)
Lemma word_steps_success_characters (w : jsstring)
  (characters : list jsstring) (fuel : nat) (code : jsstring) (P : Z) :
  forall (parser : Parser jsstring) v e,
    parse (fold_left (word_step w) characters parser) fuel code P
    = Some (Success v e) ->
    Forall (fun c => (List.length c <= 1)%nat) characters.
Proof.
  induction characters as [|c characters IH]; intros parser v e H;
    constructor.
  - cbn [fold_left] in H.
    destruct (word_steps_success_base _ _ _ _ _ _ H) as (v1 & e1 & H1).
    unfold word_step in H1.
    cbn [parse Parser.wrap Parser.concat Parser.match_] in H1.
    destruct (parse parser fuel code P) as [[v0 e0|? ? ?]|];
      try discriminate.
    destruct (jsstring_eqb (nullish (index code e0) []) c) eqn:E;
      try discriminate.
    apply jsstring_eqb_eq in E. rewrite <- E. apply character_length.
  - cbn [fold_left] in H. exact (IH _ _ _ H).
Qed.

Lemma string_iterator_short (s : jsstring) :
  Forall (fun c => (List.length c <= 1)%nat) (string_iterator s) ->
  iterates_by_code_unit s.
Proof.
  unfold iterates_by_code_unit.
  induction s as [|u rest IH]; [reflexivity|].
  cbn [string_iterator List.map]. destruct rest as [|v rest'].
  - reflexivity.
  - destruct (is_high_surrogate u && is_low_surrogate v).
    + intros H. inversion H as [|c l Hc Hl]. cbn [List.length] in Hc. lia.
    + intros H. inversion H as [|c l Hc Hl]. now rewrite (IH Hl).
Qed.

(** For every literal of at least one code unit, [word(literal)] succeeds
    at [P] exactly when no surrogate pair follows the first code unit of the
    literal and the characters of the input from [P] on are the code units
    of the literal, one by one.  A literal with a surrogate pair after its
    first code unit is matched by no input. *)
Theorem word_succeeds_iff (u : codeunit) (rest : jsstring) (fuel : nat)
  (code : jsstring) (P : Z) :
  (exists v e, parse (word (u :: rest)) fuel code P = Some (Success v e))
  <-> iterates_by_code_unit rest /\ matches_at (u :: rest) code P.
Proof.
  split.
  - intros (v & e & H).
    assert (Hit : iterates_by_code_unit rest).
    { apply string_iterator_short.
      unfold word in H. rewrite substring_from_1 in H.
      exact (word_steps_success_characters _ _ _ _ _ _ H). }
    split; [exact Hit|].
    apply (proj1 (word_spec u fuel code P Hit)). eauto.
  - intros [Hit Hm].
    apply (proj1 (word_spec u fuel code P Hit)). exact Hm.
Qed.

(** For a literal with no surrogate pair after its first code unit:
    where the input holds the literal, [word(literal)] succeeds with the
    literal as value and ends right after it; where it does not, [word]
    fails, unmarked, at the first index of the input that differs, with the
    one message of the matcher built for that index of the literal. *)
Theorem word_on_plain_literal (u : codeunit) (rest : jsstring) (fuel : nat)
  (code : jsstring) (P : Z) :
  iterates_by_code_unit rest ->
  (matches_at (u :: rest) code P ->
   parse (word (u :: rest)) fuel code P
   = Some (Success (u :: rest) (P + jslength (u :: rest))))
  /\ (forall k,
        first_mismatch_at (u :: rest) code P k ->
        parse (word (u :: rest)) fuel code P
        = Some (Failure
                  [message_at (u :: rest) (u :: rest) k
                     (nullish (index code (P + Z.of_nat k)) [])]
                  (P + Z.of_nat k) None)).
Proof.
  intros Hit. exact (proj2 (word_spec u fuel code P Hit)).
Qed.

Lemma word_on_plain_literal_witness :
  parse (word (js "xy")) 0 (js "-xz") 1
  = Some (Failure
            [js "Unexpected character: expected 'xy' (specifically 'y'), instead found 'z'"]
            2 None).
Proof.
  refine (proj2 (@word_on_plain_literal 120 (js "y") 0 (js "-xz") 1 _)
            1%nat _).
  - reflexivity.
  - split; [cbn; lia|]. split; [discriminate|].
    intros [|j] Hj; [reflexivity|lia].
Defined.

(** ** The cut *)

(** [a.concat(b.unReversible()).union(c)]: once [a] has succeeded, a failure
    of [b] is the result, marked, and [c] is not tried (the result is the
    same under a [c] that never returns); while [a] fails unmarked, the
    result is the one [c] gives when it succeeds. *)
Theorem cut_after_prefix (A B C : Type) (a : Parser A) (b : Parser B)
  (c : Parser C) (fuel : nat) (code : jsstring) (P : Z) :
  (forall v1 e1 m fi u,
      parse a fuel code P = Some (Success v1 e1) ->
      parse b fuel code e1 = Some (Failure m fi u) ->
      parse (Parser.union (Parser.concat a (Parser.unReversible b)) c)
            fuel code P
      = Some (Failure m fi (Some true))
      /\ parse (Parser.union (Parser.concat a (Parser.unReversible b))
                             (never C))
               fuel code P
         = Some (Failure m fi (Some true)))
  /\ (forall m fi u v e,
        parse a fuel code P = Some (Failure m fi u) ->
        truthy u = false ->
        parse c fuel code P = Some (Success v e) ->
        parse (Parser.union (Parser.concat a (Parser.unReversible b)) c)
              fuel code P
        = Some (Success (inr v) e)).
Proof.
  split.
  - intros v1 e1 m fi u Ha Hb.
    split; cbn [parse Parser.union Parser.concat Parser.unReversible];
      now rewrite Ha, Hb.
  - intros m fi u v e Ha Hu Hc.
    cbn [parse Parser.union Parser.concat Parser.unReversible].
    now rewrite Ha, Hu, Hc.
Qed.

(** ** A repetition that does not end *)



